(** * AI-Expert-RL: replay buffer, GAE, returns and losses

    A shallow embedding of the algorithmic kernels of the notebooks
    [dqn.ipynb], [reinforce.ipynb] and [a2c_batch_learning.ipynb]:

    - [Torch]      the few 1-D / 2-D tensor operations the kernels use
                   (element-wise arithmetic with broadcasting, slicing,
                   indexing, [empty_like], [mean], [gather], [max]);
    - [GAE]        [compute_gae] of the batch actor-critic notebook;
    - [Reinforce]  [REINFORCE.compute_return] and
                   [REINFORCE.compute_reinforce_loss];
    - [Replay]     the [ReplayBuffer] class of the DQN notebook;
    - [Dqn]        [DQN.update], [DQN.train] and [DQN.compute_td_loss];
    - [ReturnMore], [GaeMore]  further facts on the returns, on the
                   REINFORCE loss and on the estimator;
    - [ActorCritic]  the losses of the one-step actor-critic notebook;
    - [A2C]        [A2C.train] of the batch notebook and the rollout
                   buffer of its training loop;
    - [ReplayMore] [ReplayBuffer.add] with several environments;
    - [Policy]     the probabilities of [EpsilonGreedyPolicy.sample];
    - [DqnMore]    [DQN._epsilon_decay], [DQN.log_data] and the counters
                   of the agent.

    Scalars.  The notebooks compute on [float32] tensors.  Here a scalar is
    an element of a ring (of an ordered field where a mean or a maximum is
    taken): arithmetic is exact, there is no rounding, no infinity and no
    NaN.  Every equation below is an equation of exact arithmetic.

    Failure.  A Python exception ([IndexError], a shape mismatch, a
    [ZeroDivisionError], ...) is the result [None]; nothing in the
    notebooks catches an exception, so the state after one is not
    observed. *)

From HB Require Import structures.
From mathcomp Require Import boot order algebra.

Set Implicit Arguments.
Unset Strict Implicit.
Unset Printing Implicit Defensive.

Import Order.Theory GRing.Theory Num.Theory.

Declare Scope err_scope.
Delimit Scope err_scope with err.

(** Sequencing of fallible steps: [x <- m ;; k] stops at the first [None]. *)
Notation "x <- m ;; k" := (obind (fun x => k) m)
  (at level 61, m at next level, right associativity) : err_scope.
Notation "' p <- m ;; k" := (obind (fun x => let: p := x in k) m)
  (at level 61, p pattern, m at next level, right associativity) : err_scope.

Local Open Scope ring_scope.
Local Open Scope err_scope.

(** [range(n + 1)] is [range(n)] and then [n]; [reversed(range(n + 1))]
    starts at [n] and goes on as [reversed(range(n))]. *)
Lemma iota0S n : iota 0 n.+1 = iota 0 n ++ [:: n].
Proof. by rewrite -addn1 iotaD add0n. Qed.

Lemma rev_iotaS n : rev (iota 0 n.+1) = n :: rev (iota 0 n).
Proof. by rewrite iota0S rev_cat. Qed.

(** *** Arithmetic of a circular index *)

Lemma minn_succ m c : minn (minn m c + 1) c = minn m.+1 c.
Proof.
case: (leqP c m) => [le|lt]; last by rewrite addn1.
by rewrite (minn_idPr (leqW le)); apply/minn_idPr; rewrite leq_addr.
Qed.

(** Two positions less than [c] apart do not share a slot. *)
Lemma mod_window_neq k m c : (k < m)%N -> (m < k + c)%N -> (k %% c != m %% c)%N.
Proof.
move=> lt ltc; rewrite eq_sym eqn_mod_dvd ?(ltnW lt) //.
apply/negP => /(dvdn_leq _); rewrite subn_gt0 lt => /(_ isT).
by rewrite leqNgt ltn_subLR ?ltc // ltnW.
Qed.


(** The index [add] writes at, from the number [m] of experiences added
    before. *)
Lemma next_idx m c :
  modz ((if m is m'.+1 then Posz (m' %% c) else -1) + 1) (Posz c)
  = Posz (m %% c).
Proof.
case: m => [|m]; first by rewrite addNr mod0z mod0n.
by rewrite -PoszD modz_nat modnDml addn1.
Qed.

Lemma nth_map_Some T (s : seq T) k :
  (k < size s)%N -> exists x, nth None [seq Some y | y <- s] k = Some x.
Proof. by elim: s k => [|a s IH] [|k] //=; [exists a | apply: IH]. Qed.

Lemma nth_zip_map S T U (f : S -> T -> U) s0 t0 u0 (s : seq S) (t : seq T)
    i :
  size s = size t -> (i < size s)%N ->
  nth u0 [seq f p.1 p.2 | p <- zip s t] i = f (nth s0 s i) (nth t0 t i).
Proof.
move=> est lt; rewrite (nth_map (s0, t0)) ?size_zip -?est ?minnn //.
by rewrite nth_zip.
Qed.

Lemma size_zip_map S T U (f : S -> T -> U) (s : seq S) (t : seq T) :
  size s = size t -> size [seq f p.1 p.2 | p <- zip s t] = size s.
Proof. by move=> est; rewrite size_map size_zip -est minnn. Qed.

(** *** Counting in a product of sequences *)




(** ** Tensor operations *)

Module Torch.

Section Tensor1D.

Variable R : nzRingType.

(** A 1-D tensor of shape [(size x,)]. *)
Definition tensor := seq R.

(** Element-wise binary operation on two 1-D tensors.  Shapes [(a,)] and
    [(b,)] are compatible when [a = b] or one of them is [1] (the tensor of
    one element is stretched); otherwise torch raises [RuntimeError]. *)
Definition broadcast (f : R -> R -> R) (x y : tensor) : option tensor :=
  if size x == size y then Some [seq f p.1 p.2 | p <- zip x y]
  else if size x == 1%N then Some [seq f (head 0 x) b | b <- y]
  else if size y == 1%N then Some [seq f a (head 0 y) | a <- x]
  else None.

Definition add := broadcast +%R.
Definition sub := broadcast (fun a b => a - b).
Definition mul := broadcast *%R.

(** [c - x], [x * c], [x - c] and [x + c] for a Python scalar (or 0-dim
    tensor) [c]. *)
Definition rsub_scalar (c : R) (x : tensor) : tensor := [seq c - a | a <- x].
Definition mul_scalar (x : tensor) (c : R) : tensor := [seq a * c | a <- x].
Definition sub_scalar (x : tensor) (c : R) : tensor := [seq a - c | a <- x].

(** [x[1:]] and [x[:-1]]. *)
Definition slice_from1 (x : tensor) : tensor := behead x.
Definition slice_to_last (x : tensor) : tensor := take (size x).-1 x.

(** [x[t]] and [x[t] = v] for [t >= 0]: [IndexError] out of range. *)
Definition getitem (x : tensor) (t : nat) : option R :=
  if (t < size x)%N then Some (nth 0 x t) else None.
Definition setitem (x : tensor) (t : nat) (v : R) : option tensor :=
  if (t < size x)%N then Some (set_nth 0 x t v) else None.

(** [torch.empty_like(x)]: a tensor of the shape of [x] whose entries are
    whatever the allocated memory holds, here [junk 0], [junk 1], ... *)
Definition empty_like (junk : nat -> R) (x : tensor) : tensor :=
  mkseq junk (size x).

(** [x.sum()], and what it is as a sum. *)
Definition sum (x : tensor) : R := foldr +%R 0 x.

Lemma sumE (x : tensor) : sum x = \sum_(a <- x) a.
Proof. by rewrite /sum foldrE. Qed.

Implicit Types (f : R -> R -> R) (x y z : tensor).

Lemma broadcast_eq f x y :
  size x = size y -> broadcast f x y = Some [seq f p.1 p.2 | p <- zip x y].
Proof. by rewrite /broadcast => ->; rewrite eqxx. Qed.

Lemma nth_zipwith f x y t :
  size x = size y -> (t < size x)%N ->
  nth 0 [seq f p.1 p.2 | p <- zip x y] t = f (nth 0 x t) (nth 0 y t).
Proof. exact: nth_zip_map. Qed.

Lemma getitem_some x t : (t < size x)%N -> getitem x t = Some (nth 0 x t).
Proof. by rewrite /getitem => ->. Qed.

Lemma setitem_some x t v :
  (t < size x)%N -> setitem x t v = Some (set_nth 0 x t v).
Proof. by rewrite /setitem => ->. Qed.

Lemma size_set_nth_in x t v : (t < size x)%N -> size (set_nth 0 x t v) = size x.
Proof. by move=> lt; rewrite size_set_nth; apply/maxn_idPr. Qed.

(** Both backward passes of the notebooks have the shape
    [for t in reversed(range(n)): g = f(t, g); arr[t] = g].  Such a loop
    run over [range(n)] from the state [(g, arr)] succeeds, leaves the
    entries at [n] and above as they were, and fills the entries below [n]
    backwards from [g]. *)
Lemma backward_loopP (body : R * tensor -> nat -> option (R * tensor))
    (step : nat -> R -> R) m :
  (forall t g arr, (t < m)%N -> size arr = m ->
     body (g, arr) t = Some (step t g, set_nth 0 arr t (step t g))) ->
  forall n g arr, (n <= m)%N -> size arr = m ->
  exists arr',
    [/\ foldl (fun st t => st <- st ;; body st t) (Some (g, arr))
            (rev (iota 0 n))
          = Some (if n is 0%N then g else nth 0 arr' 0, arr'),
        size arr' = m,
        forall t, (n <= t)%N -> nth 0 arr' t = nth 0 arr t
      & forall t, (t < n)%N ->
          nth 0 arr' t =
          step t (if (t.+1 < n)%N then nth 0 arr' t.+1 else g)].
Proof.
move=> bodyE; elim=> [|n IH] g arr ltn sz; first by exists arr; split.
rewrite rev_iotaS /= bodyE //.
set g1 := step n g; set arr1 := set_nth _ _ _ _.
have s1 : size arr1 = m by rewrite size_set_nth_in sz.
have [||arr' [run sz' hi lo]] := IH g1 arr1; rewrite ?s1 //; first exact: ltnW.
have at_n : nth 0 arr' n = g1.
  by rewrite hi // /arr1 nth_set_nth /= eqxx.
exists arr'; split=> [||t lt|t] //.
- by rewrite run; case: (n) at_n => [->|].
- by rewrite hi ?(ltnW lt) // /arr1 nth_set_nth /= gtn_eqF.
rewrite ltnS leq_eqVlt => /orP[/eqP->|lt]; first by rewrite ltnn at_n.
rewrite lo // ltnS lt; case: ltnP => // le.
by have -> : t.+1 = n; [apply/eqP; rewrite eqn_leq lt | rewrite at_n].
Qed.

End Tensor1D.

Section Tensor2D.

Variable R : nzRingType.

(** A 2-D tensor, the sequence of its rows; a tensor carries its
    [requires_grad] flag. *)
Definition matrix := seq (tensor R).

Record var := Var { data : matrix; requires_grad : bool }.

(** All the results, or the first failure. *)
Definition oseq T (s : seq (option T)) : option (seq T) :=
  foldr (fun x acc => a <- x ;; l <- acc ;; Some (a :: l)) (Some [::]) s.

(** Element-wise operation on 2-D tensors: the rows are matched as the
    entries of 1-D tensors are (equal numbers, or a single row stretched),
    then the entries of each pair of rows. *)
Definition broadcast2 (f : R -> R -> R) (x y : matrix) : option matrix :=
  if size x == size y then oseq [seq broadcast f p.1 p.2 | p <- zip x y]
  else if size x == 1%N then oseq [seq broadcast f (head [::] x) b | b <- y]
  else if size y == 1%N then oseq [seq broadcast f a (head [::] y) | a <- x]
  else None.

(** The result of an operation requires a gradient as soon as an operand
    does. *)
Definition var_op (f : R -> R -> R) (x y : var) : option var :=
  d <- broadcast2 f (data x) (data y) ;;
  Some (Var d (requires_grad x || requires_grad y)).

Definition var_add := var_op +%R.
Definition var_sub := var_op (fun a b => a - b).
Definition var_mul := var_op *%R.

Definition var_map (f : R -> R) (x : var) : var :=
  Var [seq [seq f a | a <- r] | r <- data x] (requires_grad x).

(** [input.gather(dim=1, index=index)]: [out[i][j] =
    input[i][index[i][j]]]; the index may not have more rows than the
    input, nor point outside a row. *)
Definition gather_dim1 (input : var) (index : seq (seq nat)) : option var :=
  if (size index <= size (data input))%N then
    d <- oseq [seq oseq [seq getitem p.1 j | j <- p.2]
              | p <- zip (data input) index] ;;
    Some (Var d (requires_grad input))
  else None.

(** A column: the tensor of shape [(n, 1)] with the entries [xs]. *)
Definition column T (xs : seq T) : seq (seq T) := [seq [:: x] | x <- xs].

Lemma oseq_broadcast_column f (xs ys : tensor R) :
  size xs = size ys ->
  oseq [seq broadcast f p.1 p.2 | p <- zip (column xs) (column ys)]
  = Some (column [seq f p.1 p.2 | p <- zip xs ys]).
Proof. by elim: xs ys => [|x xs IH] [|y ys] //= [/IH->]. Qed.

Lemma var_op_column f (xs ys : tensor R) gx gy :
  size xs = size ys ->
  var_op f (Var (column xs) gx) (Var (column ys) gy)
  = Some (Var (column [seq f p.1 p.2 | p <- zip xs ys]) (gx || gy)).
Proof.
move=> sz; rewrite /var_op /broadcast2 /= !size_map sz eqxx.
by rewrite oseq_broadcast_column.
Qed.

Lemma var_map_column f (xs : tensor R) g :
  var_map f (Var (column xs) g) = Var (column [seq f x | x <- xs]) g.
Proof. by rewrite /var_map /column /= -!map_comp. Qed.

Lemma gather_dim1_column (qs : matrix) g (acts : seq nat) n :
  size acts = size qs -> all (fun q => size q == n) qs ->
  all (fun a => (a < n)%N) acts ->
  gather_dim1 (Var qs g) (column acts)
  = Some (Var (column [seq nth 0 p.1 p.2 | p <- zip qs acts]) g).
Proof.
move=> sz aq al; rewrite /gather_dim1 /= size_map sz leqnn.
suff -> : oseq [seq oseq [seq getitem p.1 j | j <- p.2]
                | p <- zip qs (column acts)]
          = Some (column [seq nth 0 p.1 p.2 | p <- zip qs acts]) by [].
elim: qs acts sz aq al => [|q qs IH] [|a acts] //= [sz].
case/andP=> /eqP sq aq /andP[lt al].
by rewrite getitem_some ?sq //= IH.
Qed.

Lemma flatten_map_column (f : R -> R) (xs : tensor R) :
  flatten [seq [seq f a | a <- r] | r <- column xs] = [seq f x | x <- xs].
Proof. by elim: xs => [|x xs IH] //=; rewrite IH. Qed.

End Tensor2D.

Section TensorField.

Variable F : numFieldType.

(** [x.mean()].  On an empty tensor torch returns NaN, which no element of
    the field stands for: the result is [None]. *)
Definition mean (x : tensor F) : option F :=
  if size x == 0%N then None else Some (sum x / (size x)%:R).



(** [F.mse_loss(input, target)]: the mean over all entries of the squared
    difference. *)
Definition mse_loss (input target : var F) : option (F * bool) :=
  d <- var_sub input target ;;
  m <- mean (flatten [seq [seq a ^+ 2 | a <- r] | r <- data d]) ;;
  Some (m, requires_grad d).

End TensorField.

Section TensorOrder.

Variable F : realFieldType.

(** The largest entry of a non-empty row. *)
Definition row_max (r : tensor F) : option F :=
  if r is x :: r' then Some (foldl Num.max x r') else None.

(** [input.max(dim=1, keepdim=True)], the values: the maximum of every
    row, which may not be empty. *)
Definition max_dim1 (input : var F) : option (var F) :=
  d <- oseq [seq omap (fun m => [:: m]) (row_max r) | r <- data input] ;;
  Some (Var d (requires_grad input)).

(** The maximum of the entries of [q], which is its first entry or a
    later one. *)
Definition max_q (q : seq F) : F :=
  \big[Num.max/head 0 q]_(x <- behead q) x.

Lemma big_max_idx (z a : F) (r : seq F) :
  \big[Num.max/Num.max z a]_(y <- r) y
  = Num.max a (\big[Num.max/z]_(y <- r) y).
Proof.
elim: r => [|b r IH]; first by rewrite !big_nil maxC.
by rewrite !big_cons IH maxCA.
Qed.

Lemma foldl_max (z : F) (r : seq F) :
  foldl Num.max z r = \big[Num.max/z]_(y <- r) y.
Proof.
elim: r z => [|a r IH] z /=; first by rewrite big_nil.
by rewrite IH big_cons big_max_idx.
Qed.

Lemma max_qP (q : seq F) :
  q != [::] -> max_q q \in q /\ forall y, y \in q -> y <= max_q q.
Proof.
case: q => [|x r] // _; rewrite /max_q /=.
elim: r => [|a r [IHin IHle]]; first by rewrite big_nil; split=> [|y]; rewrite inE // => /eqP->.
rewrite big_cons; set m := \big[_/_]_(_ <- r) _ in IHin IHle *.
split=> [|y].
  rewrite maxEle; case: ifP => _.
    by move: IHin; rewrite !inE => /orP[->|->]; rewrite ?orbT.
  by rewrite !inE eqxx orbT.
rewrite le_max !inE => /or3P[/eqP->|/eqP->|yr].
- by rewrite (IHle x) ?orbT // inE eqxx.
- by rewrite lexx.
- by rewrite (IHle y) ?orbT // inE yr orbT.
Qed.

Lemma max_dim1_column (qs : matrix F) g n :
  (0 < n)%N -> all (fun q => size q == n) qs ->
  max_dim1 (Var qs g) = Some (Var (column [seq max_q q | q <- qs]) g).
Proof.
move=> n0 al; rewrite /max_dim1 /=.
suff -> : oseq [seq omap (fun m => [:: m]) (row_max r) | r <- qs]
          = Some (column [seq max_q q | q <- qs]) by [].
elim: qs al => [|[|x r] qs IH] //= /andP[sq al].
  by move: sq n0; rewrite eq_sym => /eqP->.
by rewrite IH //= /max_q /= foldl_max.
Qed.

End TensorOrder.

End Torch.

(** ** Generalized advantage estimation ([a2c_batch_learning.ipynb]) *)

Module GAE.

Import Torch.

Section ComputeGae.

Variable R : nzRingType.
Implicit Types (state_value reward terminated delta gae : tensor R).
Implicit Types (gamma lam : R).

(** The body of the loop [for t in reversed(range(n_step))], on the state
    [(discounted_gae, gae)]. *)
Definition gae_body delta (not_terminated : tensor R) (discount_factor : R)
    (st : R * tensor R) (t : nat) : option (R * tensor R) :=
  let: (discounted_gae, gae) := st in
  d <- getitem delta t ;;
  nt <- getitem not_terminated t ;;
  let discounted_gae := d + nt * discount_factor * discounted_gae in
  gae <- setitem gae t discounted_gae ;;
  Some (discounted_gae, gae).

(** [for t in reversed(range(n_step)): ...]. *)
Definition gae_loop delta (not_terminated : tensor R) (discount_factor : R)
    (st : R * tensor R) (n_step : nat) : option (R * tensor R) :=
  foldl (fun st t => st <- st ;;
           gae_body delta not_terminated discount_factor st t)
        (Some st) (rev (iota 0 n_step)).

(** [delta = reward + not_terminated * gamma * state_value[1:]
             - state_value[:-1]]. *)
Definition compute_delta state_value reward (not_terminated : tensor R) gamma
    : option (tensor R) :=
  t1 <- mul (mul_scalar not_terminated gamma) (slice_from1 state_value) ;;
  t2 <- add reward t1 ;;
  sub t2 (slice_to_last state_value).

Definition compute_gae (junk : nat -> R) state_value reward terminated
    gamma lam : option (tensor R) :=
  let n_step := size reward in
  let gae := empty_like junk reward in
  let discounted_gae := 0 in
  let not_terminated := rsub_scalar 1 terminated in
  delta <- compute_delta state_value reward not_terminated gamma ;;
  let discount_factor := gamma * lam in
  st <- gae_loop delta not_terminated discount_factor
          (discounted_gae, gae) n_step ;;
  Some st.2.

(** The one-step TD error of the docstring, entry [t]. *)
Definition delta_at state_value reward terminated gamma (t : nat) : R :=
  nth 0 reward t + (1 - nth 0 terminated t) * gamma * nth 0 state_value t.+1
  - nth 0 state_value t.

(** *** The TD errors *)

Lemma compute_deltaP state_value reward (not_terminated : tensor R) gamma :
  size state_value = (size reward).+1 ->
  size not_terminated = size reward ->
  exists2 delta,
    compute_delta state_value reward not_terminated gamma = Some delta
    & size delta = size reward /\
      forall t, (t < size reward)%N ->
        nth 0 delta t =
        nth 0 reward t + nth 0 not_terminated t * gamma * nth 0 state_value t.+1
        - nth 0 state_value t.
Proof.
move=> esv ent; rewrite /compute_delta /mul /add /sub.
have es1 : size (slice_from1 state_value) = size reward.
  by rewrite /slice_from1 size_behead esv.
have es2 : size (slice_to_last state_value) = size reward.
  by rewrite /slice_to_last size_take esv /= ltnSn.
have esm : size (mul_scalar not_terminated gamma) = size reward.
  by rewrite size_map.
rewrite broadcast_eq ?esm ?es1 //=.
set t1 := [seq _ | p <- zip (mul_scalar _ _) _].
have et1 : size t1 = size reward by rewrite size_map size_zip esm es1 minnn.
rewrite broadcast_eq ?et1 //=.
set t2 := [seq _ | p <- zip reward _].
have et2 : size t2 = size reward by rewrite size_map size_zip et1 minnn.
rewrite broadcast_eq ?et2 ?es2 //.
eexists; first by [].
split=> [|t lt]; first by rewrite size_map size_zip et2 es2 minnn.
rewrite (nth_zipwith (fun a b => a - b)) ?et2 ?es2 //.
rewrite (nth_zipwith +%R) ?et1 // (nth_zipwith *%R) ?esm ?es1 //.
rewrite (nth_map 0) ?ent //.
by rewrite /slice_from1 nth_behead /slice_to_last nth_take // esv.
Qed.

(** *** The backward loop *)

Lemma gae_loopP delta (not_terminated : tensor R) df n g (arr : tensor R) :
  (n <= size arr)%N -> size delta = size arr ->
  size not_terminated = size arr ->
  exists arr',
    [/\ gae_loop delta not_terminated df (g, arr) n
          = Some (if n is 0%N then g else nth 0 arr' 0, arr'),
        size arr' = size arr,
        forall t, (n <= t)%N -> nth 0 arr' t = nth 0 arr t
      & forall t, (t < n)%N ->
          nth 0 arr' t =
          nth 0 delta t + nth 0 not_terminated t * df *
            (if (t.+1 < n)%N then nth 0 arr' t.+1 else g)].
Proof.
move=> ltn ed ent; apply: (@backward_loopP _ _
  (fun t g => nth 0 delta t + nth 0 not_terminated t * df * g)
  (size arr)) => // t g0 arr0 lt sz.
rewrite /gae_body (@getitem_some _ delta t) ?ed //=.
by rewrite (@getitem_some _ not_terminated t) ?ent //= setitem_some ?sz.
Qed.

(** [compute_gae] on well-shaped inputs: it returns, and the result obeys
    the recurrence in the form the loop computes it. *)
Lemma compute_gae_rec junk state_value reward terminated gamma lam :
  size state_value = (size reward).+1 ->
  size terminated = size reward ->
  exists2 gae,
    compute_gae junk state_value reward terminated gamma lam = Some gae
    & size gae = size reward /\
      forall t, (t < size reward)%N ->
        nth 0 gae t =
        delta_at state_value reward terminated gamma t
        + (1 - nth 0 terminated t) * (gamma * lam) *
          (if (t.+1 < size reward)%N then nth 0 gae t.+1 else 0).
Proof.
move=> esv et; rewrite /compute_gae.
have ent : size (rsub_scalar 1 terminated) = size reward by rewrite size_map.
have [delta -> [ed dP]] /= := compute_deltaP gamma esv ent.
have se : size (empty_like junk reward) = size reward by rewrite size_mkseq.
have [|||gae [run sz _ lo]] :=
  @gae_loopP delta (rsub_scalar 1 terminated) (gamma * lam) (size reward) 0
    (empty_like junk reward); rewrite ?se ?ed ?ent //.
rewrite run /=; exists gae => //; split=> [|t lt]; first by rewrite sz.
by rewrite lo // dP // /delta_at (nth_map 0) ?et.
Qed.







End ComputeGae.

End GAE.

(** ** REINFORCE ([reinforce.ipynb]) *)

Module Reinforce.

Import Torch.

Section ComputeReturn.

Variable R : nzRingType.
Implicit Types (reward returns : tensor R) (gamma : R).

(** The body of [for t in reversed(range(T))] in [compute_return], on the
    state [(G, returns)]; [gamma] is [self.gamma]. *)
Definition return_body gamma reward (st : R * tensor R) (t : nat)
    : option (R * tensor R) :=
  let: (G, returns) := st in
  r <- getitem reward t ;;
  let G := r + gamma * G in
  returns <- setitem returns t G ;;
  Some (G, returns).

Definition compute_return (junk : nat -> R) gamma reward
    : option (tensor R) :=
  let returns := empty_like junk reward in
  let G := 0 in
  let T := size reward in
  st <- foldl (fun st t => st <- st ;; return_body gamma reward st t)
          (Some (G, returns)) (rev (iota 0 T)) ;;
  Some st.2.

(** The discounted return from step [t] to the end of the episode. *)
Definition discounted_return gamma reward (t : nat) : R :=
  \sum_(0 <= k < size reward - t) gamma ^+ k * nth 0 reward (t + k).

Lemma compute_return_rec junk gamma reward :
  exists2 returns,
    compute_return junk gamma reward = Some returns
    & size returns = size reward /\
      forall t, (t < size reward)%N ->
        nth 0 returns t =
        nth 0 reward t
        + gamma * (if (t.+1 < size reward)%N then nth 0 returns t.+1 else 0).
Proof.
rewrite /compute_return.
have se : size (empty_like junk reward) = size reward by rewrite size_mkseq.
have [||| returns [-> sz _ lo]] :=
  @backward_loopP _ (return_body gamma reward)
    (fun t g => nth 0 reward t + gamma * g) (size reward) _
    (size reward) 0 (empty_like junk reward) => //.
  move=> t g arr lt sz.
  by rewrite /return_body getitem_some //= setitem_some ?sz.
by exists returns.
Qed.


End ComputeReturn.

Section ReinforceLoss.

Variable F : numFieldType.
Implicit Types (returns log_pi : tensor F).

(** [returns = returns - returns.mean(); return -(returns * log_pi).mean()] *)
Definition compute_reinforce_loss returns log_pi : option F :=
  baseline <- mean returns ;;
  let returns := sub_scalar returns baseline in
  weighted <- mul returns log_pi ;;
  loss <- mean weighted ;;
  Some (- loss).


End ReinforceLoss.

End Reinforce.

(** ** The replay buffer ([dqn.ipynb]) *)

(** [Experience]: five arrays of shape [(num_envs, ...)]; an array is the
    sequence of its rows. *)
Module Experience.

Record t (item : Type) := mk {
  obs : seq item;
  action : seq item;
  next_obs : seq item;
  reward : seq item;
  terminated : seq item
}.

End Experience.

Module Replay.

Section ReplayBuffer.

(** A row of an array: one observation, action, reward or flag. *)
Variable item : Type.

Notation experience := (Experience.t item).

(** *** Python lists and numpy rows *)

(** The position [l[i]] refers to in a list of length [n]: a negative
    index counts from the end, and [IndexError] outside [-n .. n-1]. *)
Definition list_index (n : nat) (i : int) : option nat :=
  match i with
  | Posz k => if (k < n)%N then Some k else None
  | Negz k => if (k < n)%N then Some (n - k.+1)%N else None
  end.

(** [l[i]] and [l[i] = v] on a storage list, whose free slots hold
    Python's [None], here Rocq's [None]. *)
Definition list_getitem (l : seq (option item)) (i : int)
    : option (option item) :=
  k <- list_index (size l) i ;; Some (nth None l k).

Definition list_setitem (l : seq (option item)) (i : int) (v : item)
    : option (seq (option item)) :=
  k <- list_index (size l) i ;; Some (set_nth None l k (Some v)).

(** [a[i]] for [i >= 0]: row [i] of an array, [IndexError] past the end. *)
Definition row (a : seq item) (i : nat) : option item :=
  nth None [seq Some x | x <- a] i.

(** *** The class *)

Record ReplayBuffer := mk {
  training_freq : nat;
  sampled_batch_size : nat;
  capacity : nat;
  num_envs : nat;
  n_step : nat;
  count : nat;
  recent_idx : int;
  obs : seq (option item);
  action : seq (option item);
  next_obs : seq (option item);
  reward : seq (option item);
  terminated : seq (option item)
}.

(** [self.n_step = n]. *)
Definition set_n_step (rb : ReplayBuffer) (n : nat) : ReplayBuffer :=
  mk (training_freq rb) (sampled_batch_size rb) (capacity rb) (num_envs rb)
     n (count rb) (recent_idx rb)
     (obs rb) (action rb) (next_obs rb) (reward rb) (terminated rb).

Definition reset (rb : ReplayBuffer) : ReplayBuffer :=
  mk (training_freq rb) (sampled_batch_size rb) (capacity rb) (num_envs rb)
     0 0 (-1)
     (nseq (capacity rb) None) (nseq (capacity rb) None)
     (nseq (capacity rb) None) (nseq (capacity rb) None)
     (nseq (capacity rb) None).

(** [__init__]: the four settings, then [reset]. *)
Definition init (training_freq sampled_batch_size capacity num_envs : nat)
    : ReplayBuffer :=
  reset (mk training_freq sampled_batch_size capacity num_envs
            0 0 0 [::] [::] [::] [::] [::]).

Definition can_sample (rb : ReplayBuffer) : bool :=
  (sampled_batch_size rb <= count rb)%N && (training_freq rb <= n_step rb)%N.

(** One turn of the loop of [add], for row [i] of the experience.  The
    remainder by a capacity of zero raises [ZeroDivisionError]. *)
Definition add_row (e : experience) (rb : ReplayBuffer) (i : nat)
    : option ReplayBuffer :=
  if capacity rb == 0%N then None else
  let recent_idx := modz (recent_idx rb + 1) (capacity rb) in
  let count := minn (count rb + 1) (capacity rb) in
  o <- row (Experience.obs e) i ;;
  obs <- list_setitem (obs rb) recent_idx o ;;
  a <- row (Experience.action e) i ;;
  action <- list_setitem (action rb) recent_idx a ;;
  n <- row (Experience.next_obs e) i ;;
  next_obs <- list_setitem (next_obs rb) recent_idx n ;;
  r <- row (Experience.reward e) i ;;
  reward <- list_setitem (reward rb) recent_idx r ;;
  t <- row (Experience.terminated e) i ;;
  terminated <- list_setitem (terminated rb) recent_idx t ;;
  Some (mk (training_freq rb) (sampled_batch_size rb) (capacity rb)
           (num_envs rb) (n_step rb) count recent_idx
           obs action next_obs reward terminated).

(** [for i in range(self.num_envs): ...] *)
Definition add_rows (e : experience) (rb : ReplayBuffer) (n : nat)
    : option ReplayBuffer :=
  foldl (fun st i => rb <- st ;; add_row e rb i) (Some rb) (iota 0 n).

Definition add (rb : ReplayBuffer) (e : experience) : option ReplayBuffer :=
  let rb := set_n_step rb (n_step rb + 1) in
  add_rows e rb (num_envs rb).

(** *** Sampling *)


(** The call itself raises [ValueError] unless [high > 0]; [drawn] is the
    sequence the generator comes up with. *)
Definition randint (high size : nat) (drawn : seq nat) : option (seq nat) :=
  if high == 0%N then None else Some drawn.

Definition _sample_idxs (rb : ReplayBuffer) (drawn : seq nat)
    : option (seq nat) :=
  randint (count rb) (sampled_batch_size rb) drawn.

(** What [np.array(operator.itemgetter( *batch_idx)(items))] holds:
    [itemgetter] called with one index returns the item itself, called
    with several the tuple of the items, which [np.array] stacks along a
    new first axis. *)
Inductive batch :=
  | Single of option item
  | Stack of seq (option item).

Definition getitems (items : seq (option item)) (idxs : seq nat)
    : option (seq (option item)) :=
  foldr (fun i acc => x <- list_getitem items (Posz i) ;;
                      xs <- acc ;; Some (x :: xs))
        (Some [::]) idxs.

(** [operator.itemgetter()] without an index raises [TypeError]. *)
Definition itemgetter (idxs : seq nat) (items : seq (option item))
    : option batch :=
  match idxs with
  | [::] => None
  | [:: i] => omap Single (list_getitem items (Posz i))
  | _ => omap Stack (getitems items idxs)
  end.

Definition _get_batch_tensor (items : seq (option item))
    (batch_idx : seq nat) : option batch :=
  itemgetter batch_idx items.

Definition batches : Type := batch * batch * batch * batch * batch.

(** [sample]: the new state (the counter is cleared before anything can
    fail) and the five batches [obs, action, next_obs, reward,
    terminated]. *)
Definition sample (rb : ReplayBuffer) (drawn : seq nat)
    : ReplayBuffer * option batches :=
  let rb := set_n_step rb 0 in
  (rb,
   sample_idx <- _sample_idxs rb drawn ;;
   let get_batch_tensor x := _get_batch_tensor x sample_idx in
   obs <- get_batch_tensor (obs rb) ;;
   action <- get_batch_tensor (action rb) ;;
   next_obs <- get_batch_tensor (next_obs rb) ;;
   reward <- get_batch_tensor (reward rb) ;;
   terminated <- get_batch_tensor (terminated rb) ;;
   Some (obs, action, next_obs, reward, terminated)).

(** *** What the buffer holds *)

(** One stored experience: the rows [obs, action, next_obs, reward,
    terminated] that one turn of the loop of [add] writes. *)
Definition transition : Type := item * item * item * item * item.

(** Row [i] of an experience. *)
Definition row5 (e : experience) (i : nat) : option transition :=
  o <- row (Experience.obs e) i ;;
  a <- row (Experience.action e) i ;;
  n <- row (Experience.next_obs e) i ;;
  r <- row (Experience.reward e) i ;;
  t <- row (Experience.terminated e) i ;;
  Some (o, a, n, r, t).

(** Slot [j] of the buffer, when all five lists are filled there. *)
Definition stored (rb : ReplayBuffer) (j : nat) : option transition :=
  o <- nth None (obs rb) j ;;
  a <- nth None (action rb) j ;;
  n <- nth None (next_obs rb) j ;;
  r <- nth None (reward rb) j ;;
  t <- nth None (terminated rb) j ;;
  Some (o, a, n, r, t).

(** The five lists have the length [reset] gave them. *)
Definition sized (rb : ReplayBuffer) : Prop :=
  [/\ size (obs rb) = capacity rb, size (action rb) = capacity rb,
      size (next_obs rb) = capacity rb, size (reward rb) = capacity rb
    & size (terminated rb) = capacity rb].

(** The buffer [rb] against the history [h] of the experiences added since
    the last [reset], oldest first: [count] and [recent_idx] follow the
    length of [h], and the experience number [k] of the last [capacity]
    ones sits in slot [k mod capacity]. *)
Definition tracks (rb : ReplayBuffer) (h : seq transition) : Prop :=
  [/\ sized rb,
      count rb = minn (size h) (capacity rb),
      recent_idx rb
      = (if size h is m.+1 then Posz (m %% capacity rb) else -1)
    & forall k, (k < size h)%N -> (size h <= k + capacity rb)%N ->
        stored rb (k %% capacity rb) = nth None [seq Some x | x <- h] k].

(** The states a buffer goes through, with the history of what was added:
    it is built by [__init__] and then only [reset], [add] and [sample]
    act on it. *)
Inductive reachable : ReplayBuffer -> seq transition -> Prop :=
  | reach_init tf bs cap ne : reachable (init tf bs cap ne) [::]
  | reach_reset rb h : reachable rb h -> reachable (reset rb) [::]
  | reach_add rb h e rb' :
      reachable rb h -> add rb e = Some rb' ->
      reachable rb' (h ++ pmap (row5 e) (iota 0 (num_envs rb)))
  | reach_sample rb h drawn :
      reachable rb h -> reachable (sample rb drawn).1 h.

(** The effect of one turn of the loop of [add] that writes [x]. *)
Definition store (rb : ReplayBuffer) (x : transition) : ReplayBuffer :=
  let: (o, a, n, r, t) := x in
  let recent_idx := modz (recent_idx rb + 1) (capacity rb) in
  let idx := absz recent_idx in
  mk (training_freq rb) (sampled_batch_size rb) (capacity rb) (num_envs rb)
     (n_step rb) (minn (count rb + 1) (capacity rb)) recent_idx
     (set_nth None (obs rb) idx (Some o))
     (set_nth None (action rb) idx (Some a))
     (set_nth None (next_obs rb) idx (Some n))
     (set_nth None (reward rb) idx (Some r))
     (set_nth None (terminated rb) idx (Some t)).






(** An experience of the shape the notebook documents: every array has
    [num_envs] rows. *)
Definition well_shaped (rb : ReplayBuffer) (e : experience) : bool :=
  [&& size (Experience.obs e) == num_envs rb,
      size (Experience.action e) == num_envs rb,
      size (Experience.next_obs e) == num_envs rb,
      size (Experience.reward e) == num_envs rb
    & size (Experience.terminated e) == num_envs rb].

(** *** One turn of the loop of [add] *)

Lemma list_setitem_nat l k v :
  (k < size l)%N ->
  list_setitem l (Posz k) v = Some (set_nth None l k (Some v)).
Proof. by rewrite /list_setitem /= => ->. Qed.


(** With a capacity of at least one the index written at is a position of
    the lists. *)
Lemma write_idx rb :
  (0 < capacity rb)%N ->
  exists2 idx, modz (recent_idx rb + 1) (capacity rb) = Posz idx
             & (idx < capacity rb)%N.
Proof.
move=> c0; have nz : Posz (capacity rb) != 0 by rewrite eqz_nat -lt0n.
have ge0 := modz_ge0 (recent_idx rb + 1) nz.
exists (absz (modz (recent_idx rb + 1) (capacity rb))).
  by rewrite gez0_abs.
by rewrite -ltz_nat gez0_abs // ltz_pmod.
Qed.

Lemma capacity_store rb x : capacity (store rb x) = capacity rb.
Proof. by case: x => [[[[o a] n] r] t]. Qed.

Lemma count_store rb x :
  count (store rb x) = minn (count rb + 1) (capacity rb).
Proof. by case: x => [[[[o a] n] r] t]. Qed.

Lemma recent_idx_store rb x :
  recent_idx (store rb x) = modz (recent_idx rb + 1) (capacity rb).
Proof. by case: x => [[[[o a] n] r] t]. Qed.

Lemma add_rowE e rb i :
  sized rb -> (0 < capacity rb)%N ->
  add_row e rb i = omap (store rb) (row5 e i).
Proof.
move=> [s1 s2 s3 s4 s5] c0; rewrite /add_row /row5 /store eqn0Ngt c0 /=.
have [idx -> lt] := write_idx c0.
case: (row (Experience.obs e) i) => [o|] //=.
rewrite list_setitem_nat ?s1 //=.
case: (row (Experience.action e) i) => [a|] //=.
rewrite list_setitem_nat ?s2 //=.
case: (row (Experience.next_obs e) i) => [n|] //=.
rewrite list_setitem_nat ?s3 //=.
case: (row (Experience.reward e) i) => [r|] //=.
rewrite list_setitem_nat ?s4 //=.
case: (row (Experience.terminated e) i) => [t|] //=.
by rewrite list_setitem_nat ?s5.
Qed.

Lemma add_row0 e rb i : capacity rb = 0%N -> add_row e rb i = None.
Proof. by rewrite /add_row => ->. Qed.

Lemma stored_store rb x j :
  stored (store rb x) j
  = if j == absz (modz (recent_idx rb + 1) (capacity rb)) then Some x
    else stored rb j.
Proof.
case: x => [[[[o a] n] r] t]; rewrite /stored /store /= !nth_set_nth /=.
by case: eqP.
Qed.

Lemma tracks_store rb h x :
  tracks rb h -> (0 < capacity rb)%N -> tracks (store rb x) (rcons h x).
Proof.
move=> [sz ec er win] c0.
have eidx : modz (recent_idx rb + 1) (capacity rb)
            = Posz (size h %% capacity rb) by rewrite er next_idx.
have lt : (size h %% capacity rb < capacity rb)%N by rewrite ltn_pmod.
split.
- case: x sz => [[[[o a] n] r] t] [s1 s2 s3 s4 s5].
  by split; rewrite /store /= eidx /= size_set_nth ?s1 ?s2 ?s3 ?s4 ?s5;
     apply/maxn_idPr.
- by case: x => [[[[o a] n] r] t]; rewrite /= ec size_rcons minn_succ.
- by rewrite size_rcons; case: x => [[[[o a] n] r] t]; rewrite /= eidx.
move=> k; rewrite size_rcons capacity_store stored_store eidx /=.
rewrite map_rcons nth_rcons size_map ltnS leq_eqVlt.
case/orP=> [/eqP->|ltk] le; first by rewrite !eqxx ltnn.
by rewrite ltk (negbTE (mod_window_neq ltk le)) win // ltnW.
Qed.

(** *** [add], [reset] and [sample] follow the history *)

(** The fields the loop of [add] leaves alone. *)
Definition same_settings (rb rb' : ReplayBuffer) : Prop :=
  [/\ training_freq rb' = training_freq rb,
      sampled_batch_size rb' = sampled_batch_size rb,
      capacity rb' = capacity rb, num_envs rb' = num_envs rb
    & n_step rb' = n_step rb].

Lemma add_rowsS e rb n :
  add_rows e rb n.+1 = (rb1 <- add_rows e rb n ;; add_row e rb1 n).
Proof. by rewrite /add_rows iota0S foldl_cat. Qed.

Lemma add_rowsP e rb h n rb' :
  tracks rb h -> add_rows e rb n = Some rb' ->
  [/\ tracks rb' (h ++ pmap (row5 e) (iota 0 n)),
      size (pmap (row5 e) (iota 0 n)) = n
    & same_settings rb rb'].
Proof.
move=> tr; elim: n rb' => [|n IH] rb'.
  by rewrite /add_rows /= => -[<-]; rewrite cats0.
rewrite add_rowsS; case er: (add_rows e rb n) => [rb1|] // erow.
rewrite /= in erow.
have [tr1 sz1 [e1 e2 e3 e4 e5]] := IH rb1 er.
case: (posnP (capacity rb1)) => [c0|c0]; first by rewrite add_row0 in erow.
have [sz _ _ _] := tr1; move: erow; rewrite add_rowE //.
case ex: (row5 e n) => [x|] // ex'.
have {ex'} <- : store rb1 x = rb' by case: ex'.
rewrite iota0S pmap_cat /= ex catA cats1 size_cat /= sz1 addn1.
split=> //; first exact: tracks_store.
by case: (x) => [[[[o a] m] r] t].
Qed.

(** In any state whatever, an [add] that returns has counted one step and
    has left the settings alone. *)
Lemma add_row_settings e rb i rb' :
  add_row e rb i = Some rb' -> same_settings rb rb'.
Proof.
rewrite /add_row; case: eqP => // _.
do 10![case: (X in obind _ X) => [?|] //=].
by case=> <-.
Qed.

Lemma add_rows_settings e rb n rb' :
  add_rows e rb n = Some rb' -> same_settings rb rb'.
Proof.
elim: n rb' => [|n IH] rb'; first by rewrite /add_rows /= => -[<-].
rewrite add_rowsS; case er: (add_rows e rb n) => [rb1|] // erow.
have [e1 e2 e3 e4 e5] := IH rb1 er.
have [f1 f2 f3 f4 f5] := add_row_settings erow.
by split; rewrite ?f1 ?f2 ?f3 ?f4 ?f5.
Qed.

Lemma add_settings rb e rb' :
  add rb e = Some rb' ->
  [/\ training_freq rb' = training_freq rb,
      sampled_batch_size rb' = sampled_batch_size rb
    & n_step rb' = (n_step rb + 1)%N].
Proof. by rewrite /add => /add_rows_settings[]. Qed.

Lemma tracks_reset rb : tracks (reset rb) [::].
Proof.
by split=> //; [split; rewrite /= size_nseq | rewrite /= min0n].
Qed.

Lemma reachable_tracks rb h : reachable rb h -> tracks rb h.
Proof.
elim=> {rb h} [tf bs cap ne|rb h _ _|rb h e rb' _ tr|rb h drawn _ tr] //.
- exact: tracks_reset.
- exact: tracks_reset.
- by rewrite /add => /(add_rowsP (rb := set_n_step rb _) tr) [].
Qed.




Lemma row_some (a : seq item) i :
  (i < size a)%N -> exists x, row a i = Some x.
Proof. by rewrite /row; apply: nth_map_Some. Qed.

Lemma row5_some rb e i :
  well_shaped rb e -> (i < num_envs rb)%N -> exists x, row5 e i = Some x.
Proof.
case/and5P=> /eqP s1 /eqP s2 /eqP s3 /eqP s4 /eqP s5 lt; rewrite /row5.
have [|o ->] := @row_some (Experience.obs e) i; first by rewrite s1.
have [|a ->] := @row_some (Experience.action e) i; first by rewrite s2.
have [|n ->] := @row_some (Experience.next_obs e) i; first by rewrite s3.
have [|r ->] := @row_some (Experience.reward e) i; first by rewrite s4.
have [|t ->] := @row_some (Experience.terminated e) i; first by rewrite s5.
by exists (o, a, n, r, t).
Qed.

(** *** The outcomes of [randint] *)





(** *** Reading the batches *)





(** *** The claims on the buffer *)

(** C2.  Take a buffer of capacity [C >= 1] with [num_envs = 1], in a
    state it can be in, [h] being the experiences added since the last
    [reset], and an experience [e] of one row [x].  Then [add] stores [x]
    at index [(recent_idx + 1) mod C], leaves the other slots alone, and
    sets [count] to [min (count + 1) C]; [count] does not exceed [C]
    before or after.  Once [C] experiences have been added the buffer
    holds the last [C] of them, number [k] in slot [k mod C], and the slot
    [add] overwrites is the slot of the oldest, number [size h - C]. *)
Theorem add_circular_overwrite rb h e :
  reachable rb h -> (0 < capacity rb)%N -> num_envs rb = 1%N ->
  well_shaped rb e ->
  exists rb' x idx,
    [/\ add rb e = Some rb' /\ row5 e 0 = Some x,
        [/\ recent_idx rb' = modz (recent_idx rb + 1) (capacity rb),
            recent_idx rb' = Posz idx, (idx < capacity rb)%N,
            stored rb' idx = Some x
          & forall j, j != idx -> stored rb' j = stored rb j],
        [/\ count rb' = minn (count rb + 1) (capacity rb),
            (count rb <= capacity rb)%N & (count rb' <= capacity rb)%N]
      & (capacity rb <= size h)%N ->
        [/\ forall k, (size h - capacity rb <= k < size h)%N ->
              stored rb (k %% capacity rb)
              = nth None [seq Some y | y <- h] k,
            idx = ((size h - capacity rb) %% capacity rb)%N
          & stored rb idx
            = nth None [seq Some y | y <- h] (size h - capacity rb)]].
Proof.
move=> /reachable_tracks tr c0 ne1 ws.
have [x ex] : exists x, row5 e 0 = Some x.
  by apply: (row5_some ws); rewrite ne1.
have [sz ec er win] := tr.
have eidx : modz (recent_idx rb + 1) (capacity rb)
            = Posz (size h %% capacity rb) by rewrite er next_idx.
exists (store (set_n_step rb (n_step rb + 1)) x), x, (size h %% capacity rb)%N.
split.
- by rewrite /add /= ne1 /add_rows /= add_rowE // ex.
- split; rewrite ?recent_idx_store ?ltn_pmod ?stored_store /= ?eidx ?eqxx //.
  by move=> j /negbTE nj; rewrite stored_store /= eidx /= nj.
- by split; rewrite ?count_store ?geq_minr //= ec geq_minr.
move=> le; have es : (size h - capacity rb + capacity rb)%N = size h.
  by rewrite subnK.
have lt : (size h - capacity rb < size h)%N.
  by rewrite -{2}es -[X in (X < _)%N]addn0 ltn_add2l.
split=> [k /andP[lek ltk]||].
- by rewrite win // addnC -leq_subLR.
- by rewrite -{1}es modnDr.
- by rewrite -{1}es modnDr win // es.
Qed.



End ReplayBuffer.

End Replay.

(** ** The DQN agent ([dqn.ipynb]) *)

Module Dqn.

Section Agent.

(** The scalars of the losses and of epsilon. *)
Variable F : realFieldType.

(** A row of an array, as the replay buffer stores it. *)
Variable item : Type.

(** The network with its optimizer: parameters and optimizer state. *)
Variable net : Type.

(** One gradient step of [train] on a sampled batch: [_to_tensor],
    [compute_td_loss], [zero_grad], [backward] and [optimizer.step]; it
    gives the network after the step and [td_loss.item()]. *)
Variable learn : net -> Replay.batches item -> option (net * F).

(** The random generator: [rng i] is what the call number [i] of
    [np.random.randint] comes up with. *)
Variable rng : nat -> seq nat.

Record DQNConfig := mkConfig {
  training_freq : nat;
  batch_size : nat;
  capacity : nat;
  epoch : nat;
  epsilon_linear_decay : int * int * F * F;
  gamma : F
}.

(** What an agent does to its replay buffer, in the order it does it; an
    invocation of [train] is recorded with the [count] and the [n_step] of
    the buffer at that moment. *)
Inductive event :=
  | EvAdd
  | EvTrain of nat & nat
  | EvSample.

(** The agent.  [epsilon] is [policy.epsilon]; [log] is not a field of the
    class: it records the events, the latest first. *)
Record DQN := mk {
  config : DQNConfig;
  network : net;
  epsilon : F;
  num_envs : nat;
  replay_buffer : Replay.ReplayBuffer item;
  global_time_step : nat;
  training_step : nat;
  num_losses : nat;
  avg_loss : F;
  log : seq event
}.

Definition init (config : DQNConfig) (network : net) (num_envs : nat) : DQN :=
  mk config network (epsilon_linear_decay config).1.2 num_envs
     (Replay.init item (training_freq config) (batch_size config)
        (capacity config) num_envs)
     0 0 0 0 [::].

(** One turn of the loop of [train]. *)
Definition train_epoch (s : DQN) : option DQN :=
  let: (rb, exp_batch) :=
    Replay.sample (replay_buffer s) (rng (training_step s)) in
  let log := EvSample :: log s in
  exp_batch <- exp_batch ;;
  '(network, td_loss) <- learn (network s) exp_batch ;;
  let training_step := (training_step s + 1)%N in
  let num_losses := (num_losses s + 1)%N in
  let avg_loss :=
    avg_loss s + 1 / num_losses%:R * (td_loss - avg_loss s) in
  Some (mk (config s) network (epsilon s) (num_envs s) rb
           (global_time_step s) training_step num_losses avg_loss log).

(** [for _ in range(self.config.epoch): ...] *)
Definition train_epochs (s : DQN) (n : nat) : option DQN :=
  foldl (fun st _ => s <- st ;; train_epoch s) (Some s) (iota 0 n).

Definition train (s : DQN) : option DQN :=
  train_epochs s (epoch (config s)).

(** [np.clip(x, a_min, a_max)]. *)
Definition clip (x a_min a_max : F) : F := Num.min a_max (Num.max x a_min).

(** The division by [end_t - start_t], two Python integers, raises
    [ZeroDivisionError] when they are equal. *)
Definition _epsilon_decay (s : DQN) (t : nat) : option DQN :=
  let: (start_t, end_t, start_value, end_value) :=
    epsilon_linear_decay (config s) in
  if end_t - start_t == 0 then None else
  let slope := (end_value - start_value) / (end_t - start_t)%:~R in
  let value :=
    clip (slope * (t%:R - start_t%:~R) + start_value) end_value start_value in
  Some (mk (config s) (network s) value (num_envs s) (replay_buffer s)
           (global_time_step s) (training_step s) (num_losses s)
           (avg_loss s) (log s)).

Definition update (s : DQN) (e : Experience.t item) : option DQN :=
  rb <- Replay.add (replay_buffer s) e ;;
  let s := mk (config s) (network s) (epsilon s) (num_envs s) rb
              (global_time_step s + 1) (training_step s) (num_losses s)
              (avg_loss s) (EvAdd :: log s) in
  if Replay.can_sample rb then
    let s := mk (config s) (network s) (epsilon s) (num_envs s)
                (replay_buffer s) (global_time_step s)
                (training_step s) (num_losses s) (avg_loss s)
                (EvTrain (Replay.count rb) (Replay.n_step rb) :: log s) in
    s <- train s ;;
    _epsilon_decay s (global_time_step s)
  else Some s.

(** The training loop of the notebook, as far as the agent goes: one
    [update] for every experience the environment yields. *)
Definition run (s : DQN) (es : seq (Experience.t item)) : option DQN :=
  foldl (fun st e => s <- st ;; update s e) (Some s) es.

(** The events in the order they happened. *)
Definition history (s : DQN) : seq event := rev (log s).

Definition is_add (ev : event) : bool := if ev is EvAdd then true else false.
Definition is_sample (ev : event) : bool :=
  if ev is EvSample then true else false.

End Agent.

(** *** The temporal-difference loss *)

Section TdLoss.

Import Torch.

Variable F : realFieldType.

(** An observation, and the forward pass of [self.network] on one
    observation: the Q value of every action.  The network acts on a batch
    row by row. *)
Variable Obs : Type.
Variable network : Obs -> seq F.

(** [self.network(obs)].  The parameters of the network require a
    gradient and the batch does not: the output requires one unless the
    call is made under [torch.no_grad()]. *)
Definition forward (no_grad : bool) (obs : seq Obs) : var F :=
  Var [seq network o | o <- obs] (~~ no_grad).

(** The part of [compute_td_loss] that makes [q_target]. *)
Definition compute_q_target (next_obs : seq Obs) (reward terminated : var F)
    (gamma : F) : option (var F) :=
  let next_q_values := forward true next_obs in
  next_max_q_value <- max_dim1 next_q_values ;;
  let not_terminated := var_map (fun t => 1 - t) terminated in
  t1 <- var_mul (var_map (fun a => a * gamma) not_terminated)
          next_max_q_value ;;
  var_add reward t1.

(** [compute_td_loss]: the loss and whether it requires a gradient;
    [gamma] is [self.config.gamma]. *)
Definition compute_td_loss (obs : seq Obs) (action : seq (seq nat))
    (next_obs : seq Obs) (reward terminated : var F) (gamma : F)
    : option (F * bool) :=
  let q_values := forward false obs in
  q_value <- gather_dim1 q_values action ;;
  q_target <- compute_q_target next_obs reward terminated gamma ;;
  mse_loss q_target q_value.

(** The temporal-difference error of sample [i] of a batch given by its
    columns. *)
Definition td_error (gamma : F) (obs : seq Obs) (acts : seq nat)
    (next_obs : seq Obs) (rs ts : seq F) (i : nat) : F :=
  nth 0 rs i
  + (1 - nth 0 ts i) * gamma
    * max_q (nth [::] [seq network o | o <- next_obs] i)
  - nth 0 (nth [::] [seq network o | o <- obs] i) (nth 0%N acts i).

(** The batch mean of the squared temporal-difference errors. *)
Definition mean_squared_td_error (gamma : F) (obs : seq Obs)
    (acts : seq nat) (next_obs : seq Obs) (rs ts : seq F) : F :=
  (\sum_(0 <= i < size obs)
      td_error gamma obs acts next_obs rs ts i ^+ 2) / (size obs)%:R.

(** C6.  On a batch of [B >= 1] samples, given by the columns of its
    actions, rewards and flags, with a network of [n >= 1] actions and
    actions below [n]: [compute_td_loss] returns the batch mean of
    [(reward + (1 - terminated) * gamma * max_a Q(next_obs, a)
      - Q(obs, action))^2], the mean squared error between [q_target] and
    the Q value of the action taken; [q_target], made from the next-state Q
    values computed under [no_grad], requires no gradient, and the loss
    does; and [max_q] is the largest of the Q values. *)
Theorem compute_td_loss_mse gamma obs acts next_obs rs ts n :
  (0 < n)%N -> (forall o, size (network o) = n) ->
  all (fun a => (a < n)%N) acts ->
  (0 < size obs)%N -> size acts = size obs -> size next_obs = size obs ->
  size rs = size obs -> size ts = size obs ->
  [/\ compute_td_loss obs (column acts) next_obs
        (Var (column rs) false) (Var (column ts) false) gamma
      = Some (mean_squared_td_error gamma obs acts next_obs rs ts, true),
      exists2 q_target,
        compute_q_target next_obs (Var (column rs) false)
          (Var (column ts) false) gamma = Some q_target
        & requires_grad q_target = false
    & forall q : seq F,
        q != [::] -> max_q q \in q /\ forall y, y \in q -> y <= max_q q].
Proof.
move=> n0 sn al b0 sa so sr st.
have aln (os : seq Obs) : all (fun q => size q == n) [seq network o | o <- os].
  by elim: os => [|o os IH] //=; rewrite sn eqxx.
have eq_target :
  compute_q_target next_obs (Var (column rs) false) (Var (column ts) false)
    gamma
  = Some (Var (column
      [seq p.1 + p.2
      | p <- zip rs
          [seq p.1 * p.2
          | p <- zip [seq a * gamma | a <- [seq 1 - t | t <- ts]]
                   [seq max_q q | q <- [seq network o | o <- next_obs]]]])
      false).
  rewrite /compute_q_target /forward (max_dim1_column _ n0) //=.
  rewrite !var_map_column /var_mul var_op_column ?size_map ?so ?st //=.
  by rewrite /var_add var_op_column // size_zip_map ?size_map ?so ?st ?sr.
split; [|by rewrite eq_target; eexists|exact: max_qP].
rewrite /compute_td_loss /forward.
rewrite (gather_dim1_column _ _ (aln obs)) ?size_map //= eq_target /=.
rewrite /mse_loss /var_sub var_op_column /=.
  by rewrite !size_zip_map ?size_map ?so ?st ?sr ?sa.
rewrite flatten_map_column /mean size_map.
set T := [seq _ | p <- zip rs _]; set Q := [seq _ | p <- zip _ acts].
have sT : size T = size obs.
  by rewrite !size_zip_map ?size_map ?so ?st ?sr.
have sQ : size Q = size obs by rewrite size_zip_map ?size_map.
have sTQ : size [seq p.1 - p.2 | p <- zip T Q] = size obs.
  by rewrite (size_zip_map (fun a b => a - b)) ?sT ?sQ.
rewrite sTQ eqn0Ngt b0 /=; congr (Some (_ / _, _)).
rewrite sumE /mean_squared_td_error.
have -> : [seq a ^+ 2 | a <- [seq p.1 - p.2 | p <- zip T Q]]
          = mkseq (fun i => td_error gamma obs acts next_obs rs ts i ^+ 2)
              (size obs).
  apply: (@eq_from_nth _ 0) => [|i]; first by rewrite size_mkseq size_map.
  rewrite size_map sTQ => lt.
  rewrite nth_mkseq // (nth_map 0) ?sTQ //.
  rewrite (nth_zip_map (fun a b => a - b) 0 0) ?sT ?sQ // /td_error.
  congr ((_ - _) ^+ 2).
    rewrite (nth_zip_map _ 0 0) ?sr ?size_zip_map ?size_map ?so ?st //.
    rewrite (nth_zip_map _ 0 0) ?size_map ?so ?st //.
    by rewrite (nth_map 0) ?size_map ?st // (nth_map 0) ?st //
               (nth_map [::]) ?size_map ?so.
  by rewrite (nth_zip_map _ [::] 0%N) ?size_map.
by rewrite /mkseq big_map /index_iota subn0.
Qed.

End TdLoss.

Section AgentTheory.

Variable F : realFieldType.
Variable item : Type.
Variable net : Type.
Variable learn : net -> Replay.batches item -> option (net * F).
Variable rng : nat -> seq nat.

Notation DQN := (DQN F item net).
Notation DQNConfig := (DQNConfig F).
Notation run := (run learn rng).
Notation update := (update learn rng).
Notation train := (train learn rng).
Notation train_epoch := (train_epoch learn rng).
Notation train_epochs := (train_epochs learn rng).
Notation init := (init item).

Implicit Types (s : DQN) (cfg : DQNConfig).

(** *** Reading a log, latest event first *)

(** The calls of [add] since [train] was last invoked. *)
Fixpoint adds_since_train (l : seq event) : nat :=
  match l with
  | EvAdd :: l => (adds_since_train l).+1
  | EvSample :: l => adds_since_train l
  | _ => 0%N
  end.

(** Nothing but [sample] has happened since [train] was invoked. *)
Fixpoint in_training (l : seq event) : bool :=
  match l with
  | EvSample :: l => in_training l
  | EvTrain _ _ :: _ => true
  | _ => false
  end.

(** Every invocation of [train] in the log found at least [batch] stored
    experiences and at least [freq] steps on the counter; every [sample]
    is part of an invocation of [train]; and, when [amortized] is set,
    every invocation of [train] comes at least [freq] calls of [add] after
    the one before. *)
Fixpoint gated (amortized : bool) (freq batch : nat) (l : seq event)
    : bool :=
  match l with
  | [::] => true
  | EvAdd :: l => gated amortized freq batch l
  | EvSample :: l => in_training l && gated amortized freq batch l
  | EvTrain c n :: l =>
      [&& (batch <= c)%N, (freq <= n)%N,
          amortized ==> (freq <= adds_since_train l)%N
        & gated amortized freq batch l]
  end.

(** What every state of a run satisfies. *)
Definition run_invariant (cfg : DQNConfig) (s : DQN) : Prop :=
  [/\ config s = cfg,
      Replay.training_freq (replay_buffer s) = training_freq cfg,
      Replay.sampled_batch_size (replay_buffer s) = batch_size cfg,
      gated (0 < epoch cfg)%N (training_freq cfg) (batch_size cfg) (log s)
    & (0 < epoch cfg)%N ->
      (Replay.n_step (replay_buffer s) <= adds_since_train (log s))%N].

Lemma gated_suffix a freq batch l1 l2 :
  gated a freq batch (l1 ++ l2) -> gated a freq batch l2.
Proof.
elim: l1 => [|[|c n|] l1 IH] //=; first by case/and4P.
by case/andP.
Qed.

Lemma adds_since_train_le l2 c n l1 :
  (adds_since_train (l2 ++ EvTrain c n :: l1) <= count is_add l2)%N.
Proof.
by elim: l2 => [|[|c' n'|] l2 IH].
Qed.

Lemma in_trainingP l :
  in_training l ->
  exists l' c n l0, l = l' ++ EvTrain c n :: l0 /\ all is_sample l'.
Proof.
elim: l => [|[|c n|] l IH] //=; first by exists [::], c, n, l.
by case/IH=> l' [c [n [l0 [-> al]]]]; exists (EvSample :: l'), c, n, l0.
Qed.

(** *** The steps of a run *)

Lemma train_epochP s s' :
  train_epoch s = Some s' ->
  [/\ config s' = config s, log s' = EvSample :: log s
    & replay_buffer s' = Replay.set_n_step (replay_buffer s) 0].
Proof.
rewrite /train_epoch /Replay.sample /=.
case: (X in obind _ X) => [b|] //=.
by case: (learn _ _) => [[nw l]|] //= [<-].
Qed.

Lemma train_epochsP s n s' :
  train_epochs s n = Some s' ->
  [/\ config s' = config s, log s' = nseq n EvSample ++ log s
    & replay_buffer s'
      = if n is 0%N then replay_buffer s
        else Replay.set_n_step (replay_buffer s) 0].
Proof.
elim: n s' => [|n IH] s'; first by rewrite /train_epochs /= => -[<-].
rewrite /train_epochs iota0S foldl_cat /= -/(train_epochs s n).
case er: (train_epochs s n) => [s1|] //= /train_epochP[-> -> ->].
have [-> -> ->] := IH s1 er.
by split=> //; case: (n).
Qed.

Lemma _epsilon_decayP s t (s' : DQN) :
  _epsilon_decay s t = Some s' ->
  [/\ config s' = config s, log s' = log s
    & replay_buffer s' = replay_buffer s].
Proof.
rewrite /_epsilon_decay; case: (epsilon_linear_decay _) => [[[a b] c] d].
by case: eqP => // _ [<-].
Qed.

Lemma in_training_samples n l :
  in_training l -> in_training (nseq n EvSample ++ l).
Proof. by elim: n. Qed.

Lemma adds_since_train_samples n l :
  adds_since_train (nseq n EvSample ++ l) = adds_since_train l.
Proof. by elim: n. Qed.

Lemma gated_samples a freq batch n l :
  in_training l -> gated a freq batch l ->
  gated a freq batch (nseq n EvSample ++ l).
Proof.
by move=> it g; elim: n => [|n IH] //=; rewrite in_training_samples.
Qed.

Lemma run_invariant_init cfg nw ne : run_invariant cfg (init cfg nw ne).
Proof. by split. Qed.

Lemma run_invariant_update cfg s e s' :
  run_invariant cfg s -> update s e = Some s' -> run_invariant cfg s'.
Proof.
move=> [ec ef eb g le]; rewrite /update.
case ea: (Replay.add _ e) => [rb|] //=.
have [f1 f2 f3] := Replay.add_settings ea.
case: ifP => [cs|_ [<-]]; last first.
  by split; rewrite ?f1 ?f2 //= f3 addn1 => /le.
case et: (train _) => [s1|] //= ed.
have [c2 l2 r2] := _epsilon_decayP ed; have [c1 l1 r1] := train_epochsP et.
move: cs; rewrite /Replay.can_sample f1 f2 ef eb => /andP[cb cf].
split; rewrite ?c2 ?l2 ?r2 ?c1 ?l1 ?r1 //=.
- by case: (epoch (config s)) => [|k] /=; rewrite f1 ef.
- by case: (epoch (config s)) => [|k] /=; rewrite f2 eb.
- rewrite ec; apply: gated_samples => //=; rewrite cb cf g !andbT /=.
  apply/implyP=> /le; rewrite f3 addn1 in cf *.
  by move=> h; apply: leq_trans cf _; rewrite ltnS.
by rewrite adds_since_train_samples /= ec; case: (epoch cfg).
Qed.

Lemma run_invariant_run cfg s es s' :
  run_invariant cfg s -> run s es = Some s' -> run_invariant cfg s'.
Proof.
rewrite /run; elim: es s => [|e es IH] s inv /=; first by case=> <-.
case eu: (update s e) => [s1|] /=; first exact: IH (run_invariant_update inv eu).
by elim: (es).
Qed.

Lemma history_split s l1 ev l2 :
  history s = l1 ++ ev :: l2 -> log s = rev l2 ++ ev :: rev l1.
Proof.
by rewrite /history => /(congr1 rev); rewrite revK rev_cat rev_cons cat_rcons.
Qed.

(** The claim of amortized gating, on the events of a state: two
    invocations of [train] have at least [training_freq] calls of [add]
    between them. *)
Definition amortized (cfg : DQNConfig) (s : DQN) : Prop :=
  forall l1 c n l2 c' n' l3,
    history s = l1 ++ EvTrain c n :: l2 ++ EvTrain c' n' :: l3 ->
    (training_freq cfg <= count is_add l2)%N.

(** C7, as the code has it.  [can_sample] holds iff [count >=
    sampled_batch_size] and [n_step >= training_freq], and [sample] resets
    [n_step] to 0.  In every run of [update] from a new agent: [train] is
    invoked only when [can_sample] holds, so never before
    [sampled_batch_size] experiences are stored; the buffer is sampled
    only inside an invocation of [train]; and, when [epoch >= 1], at least
    [training_freq] experiences are added between two invocations of
    [train]. *)
Theorem update_gates_training cfg nw ne es s :
  run (init cfg nw ne) es = Some s ->
  [/\ forall rb : Replay.ReplayBuffer item,
        Replay.can_sample rb
        = (Replay.sampled_batch_size rb <= Replay.count rb)%N
          && (Replay.training_freq rb <= Replay.n_step rb)%N,
      forall (rb : Replay.ReplayBuffer item) drawn,
        Replay.n_step (Replay.sample rb drawn).1 = 0%N,
      forall l1 c n l2,
        history s = l1 ++ EvTrain c n :: l2 ->
        (batch_size cfg <= c)%N /\ (training_freq cfg <= n)%N,
      forall l1 l2,
        history s = l1 ++ EvSample :: l2 ->
        exists l0 c n l', l1 = l0 ++ EvTrain c n :: l' /\ all is_sample l'
    & (0 < epoch cfg)%N -> amortized cfg s].
Proof.
move=> /(run_invariant_run (run_invariant_init cfg nw ne))[_ _ _ g _].
split=> // [l1 c n l2 /history_split eh|l1 l2 /history_split eh|e0].
- by move: g; rewrite eh => /gated_suffix /= /and4P[].
- move: g; rewrite eh => /gated_suffix /= /andP[/in_trainingP].
  move=> [l' [c [n [l0 [el al]]]]] _.
  exists (rev l0), c, n, (rev l'); rewrite all_rev; split=> //.
  by rewrite -[LHS]revK el rev_cat rev_cons cat_rcons.
move=> l1 c n l2 c' n' l3; rewrite -cat_cons catA => /history_split eh.
move: g; rewrite eh e0 => /gated_suffix /= /and4P[_ _ le _].
move: le; rewrite rev_cat rev_cons cat_rcons.
by move/leq_trans; apply; rewrite -(count_rev _ l2) adds_since_train_le.
Qed.

End AgentTheory.

End Dqn.

(** ** The kernels at work on concrete inputs *)

Module Instances.

Import Torch.

(** *** Advantages and returns, over the integers *)

Definition junk7 : nat -> int := fun _ => 7.
Definition state_value4 : tensor int := [:: 1; 2; 3; 4].
Definition reward3 : tensor int := [:: 10; 20; 30].
Definition terminated3 : tensor int := [:: 0; 1; 0].

Example compute_gae_3_steps :
  GAE.compute_gae junk7 state_value4 reward3 terminated3 2 3
  = Some [:: 121; 18; 35].
Proof. by vm_compute. Qed.

Example compute_gae_shape_mismatch :
  GAE.compute_gae junk7 [:: 1; 2; 3] reward3 terminated3 2 3 = None.
Proof. by vm_compute. Qed.

Example compute_return_4_steps :
  Reinforce.compute_return junk7 2 [:: 1; 1; 1; 5] = Some [:: 47; 23; 11; 5].
Proof. by vm_compute. Qed.




(** *** The REINFORCE loss, over the rationals *)

Definition log_pi3 : tensor rat := [:: -1; -1; -2].


(** *** A replay buffer of three slots *)

Definition exp1 (n : nat) : Experience.t nat :=
  Experience.mk [:: n] [:: 100 + n]%N [:: 200 + n]%N [:: 300 + n]%N
    [:: 400 + n]%N.

Definition buffer0 : Replay.ReplayBuffer nat := Replay.init nat 2 1 3 1.

Definition buffer1 : Replay.ReplayBuffer nat :=
  Eval vm_compute in odflt buffer0 (Replay.add buffer0 (exp1 1)).

Lemma buffer1_reachable : Replay.reachable buffer1 [:: (1, 101, 201, 301, 401)%N].
Proof.
exact: (@Replay.reach_add _ buffer0 [::] (exp1 1) buffer1
          (Replay.reach_init nat 2 1 3 1) erefl).
Defined.

Example buffer_wraps_around :
  omap (fun rb => (Replay.recent_idx rb, Replay.count rb, Replay.obs rb))
    (foldl (fun st n => rb <- st ;; Replay.add rb (exp1 n)) (Some buffer0)
       [:: 1; 2; 3; 4]%N)
  = Some (Posz 0, 3%N, [:: Some 4; Some 2; Some 3]%N).
Proof. reflexivity. Qed.

Lemma add_circular_overwrite_witness :
  exists rb', Replay.add buffer1 (exp1 2) = Some rb' /\ Replay.count rb' = 2%N.
Proof.
have [rb' [x [idx [[run _] _ [ec _ _] _]]]] :=
  @Replay.add_circular_overwrite _ buffer1 _ (exp1 2) buffer1_reachable
    isT erefl isT.
by exists rb'; split; [exact: run | rewrite ec].
Defined.





(** *** An agent that trains every second step *)

Definition learn0 (nw : unit) (b : Replay.batches nat) : option (unit * rat) :=
  Some (tt, 1).
Definition rng0 (i : nat) : seq nat := [:: 0%N].

Definition decay0 : int * int * rat * rat := (0, 100, 3%:Q / 10%:Q, 1%:Q / 100%:Q).

(** [training_freq = 2], [batch_size = 1], [capacity = 3]; no epoch, or
    two. *)
Definition config_epoch0 : Dqn.DQNConfig rat :=
  Dqn.mkConfig 2 1 3 0 decay0 (99%:Q / 100%:Q).
Definition config_epoch2 : Dqn.DQNConfig rat :=
  Dqn.mkConfig 2 1 3 2 decay0 (99%:Q / 100%:Q).

Definition agent_epoch0 : Dqn.DQN rat nat unit :=
  Eval vm_compute in
    odflt (Dqn.init nat config_epoch0 tt 1)
      (Dqn.run learn0 rng0 (Dqn.init nat config_epoch0 tt 1)
         [:: exp1 1; exp1 2; exp1 3]).

Definition agent_epoch2 : Dqn.DQN rat nat unit :=
  Eval vm_compute in
    odflt (Dqn.init nat config_epoch2 tt 1)
      (Dqn.run learn0 rng0 (Dqn.init nat config_epoch2 tt 1)
         [:: exp1 1; exp1 2; exp1 3; exp1 4; exp1 5]).

Example history_epoch2 :
  Dqn.history agent_epoch2
  = [:: Dqn.EvAdd; Dqn.EvAdd; Dqn.EvTrain 2 2; Dqn.EvSample; Dqn.EvSample;
        Dqn.EvAdd; Dqn.EvAdd; Dqn.EvTrain 3 2; Dqn.EvSample; Dqn.EvSample;
        Dqn.EvAdd].
Proof. reflexivity. Qed.

(** With [epoch = 0] the loop of [train] does not run, [sample] is not
    called and [n_step] is not reset: [train] is invoked at the second
    step and again at the third, one [add] later, with [training_freq =
    2]. *)
Lemma update_not_amortized_when_epoch_zero :
  [/\ Dqn.run learn0 rng0 (Dqn.init nat config_epoch0 tt 1)
        [:: exp1 1; exp1 2; exp1 3] = Some agent_epoch0,
      Dqn.history agent_epoch0
      = [:: Dqn.EvAdd; Dqn.EvAdd; Dqn.EvTrain 2 2; Dqn.EvAdd;
            Dqn.EvTrain 3 3]
    & ~ Dqn.amortized config_epoch0 agent_epoch0].
Proof.
split; [reflexivity | reflexivity |].
by move/(_ [:: Dqn.EvAdd; Dqn.EvAdd] 2%N 2%N [:: Dqn.EvAdd] 3%N 3%N [::] erefl).
Qed.

Lemma update_gates_training_witness :
  Dqn.amortized config_epoch2 agent_epoch2.
Proof.
have run : Dqn.run learn0 rng0 (Dqn.init nat config_epoch2 tt 1)
             [:: exp1 1; exp1 2; exp1 3; exp1 4; exp1 5] = Some agent_epoch2.
  reflexivity.
have [_ _ _ _ am] := Dqn.update_gates_training run.
exact: am.
Defined.

(** *** A network of three actions *)

Definition network3 (o : bool) : seq rat :=
  if o then [:: 3; 0; 4] else [:: 1; 5; 2].

Example compute_td_loss_2_samples :
  Dqn.compute_td_loss network3 [:: false; true] [:: [:: 1%N]; [:: 2%N]]
    [:: true; false] (Var [:: [:: 10]; [:: 20]] false)
    (Var [:: [:: 0]; [:: 1]] false) 2
  == Some (425%:Q / 2%:Q, true).
Proof. by vm_compute. Qed.

Lemma compute_td_loss_mse_witness :
  Dqn.compute_td_loss network3 [:: false; true] (column [:: 1%N; 2%N])
    [:: true; false] (Var (column [:: 10; 20]) false)
    (Var (column [:: 0; 1]) false) 2
  = Some (Dqn.mean_squared_td_error network3 2 [:: false; true]
            [:: 1%N; 2%N] [:: true; false] [:: 10; 20] [:: 0; 1], true).
Proof.
have sz o : size (network3 o) = 3%N by case: o.
by have [] :=
  @Dqn.compute_td_loss_mse _ _ network3 2 [:: false; true] [:: 1%N; 2%N]
    [:: true; false] [:: 10; 20] [:: 0; 1] 3 isT sz isT isT erefl erefl
    erefl erefl.
Defined.

End Instances.

(** ** More on the returns and on the REINFORCE loss *)

Module ReturnMore.

Import Torch Reinforce.

Section Returns.

Variable R : nzRingType.
Implicit Types (reward returns : tensor R) (gamma : R).

(** The discounted return obeys the recurrence of [compute_return]. *)
Lemma discounted_return_rec gamma reward t :
  (t < size reward)%N ->
  discounted_return gamma reward t
  = nth 0 reward t + gamma * discounted_return gamma reward t.+1.
Proof.
move=> lt; rewrite /discounted_return.
have -> : (size reward - t = (size reward - t.+1).+1)%N by rewrite subnSK.
rewrite big_nat_recl // expr0 mul1r addn0; congr (_ + _).
rewrite mulr_sumr; apply: eq_bigr => k _.
by rewrite mulrA -exprS addSnnS.
Qed.

Lemma discounted_return_end gamma reward t :
  (size reward <= t)%N -> discounted_return gamma reward t = 0.
Proof.
by move=> le; rewrite /discounted_return big_geq // leqn0 subn_eq0.
Qed.

Lemma compute_returnE junk gamma reward :
  compute_return junk gamma reward
  = Some (mkseq (discounted_return gamma reward) (size reward)).
Proof.
have [returns -> [sz rec]] := compute_return_rec junk gamma reward.
congr Some; apply: (@eq_from_nth _ 0); first by rewrite sz size_mkseq.
move=> t; rewrite sz => lt; rewrite nth_mkseq //.
have [k ek] : exists k, (t + k.+1)%N = size reward.
  by exists (size reward - t.+1)%N; rewrite addnS -addSn subnKC.
elim: k t lt ek => [|k IH] t lt ek.
  rewrite (rec t) // discounted_return_rec // -ek addn1 ltnn.
  by rewrite discounted_return_end // -ek addn1.
have lt' : (t.+1 < size reward)%N by rewrite -ek -2!addSnnS leq_addr.
have ek' : (t.+1 + k.+1)%N = size reward by rewrite addSnnS.
by rewrite (rec t) // lt' (IH _ lt' ek') -discounted_return_rec.
Qed.

Lemma discounted_return_cat gamma (r1 r2 : tensor R) t :
  discounted_return gamma (r1 ++ r2) (size r1 + t)
  = discounted_return gamma r2 t.
Proof.
rewrite /discounted_return size_cat subnDl; apply: eq_bigr => k _.
by rewrite nth_cat -addnA ltnNge leq_addr /= addKn.
Qed.

(** X1.  The return of a step depends on the rewards from that step on
    only: the returns of an episode [r1 ++ r2], without their first
    [size r1] entries, are the returns of [r2]. *)
Theorem compute_return_suffix junk gamma (r1 r2 : tensor R) :
  omap (drop (size r1)) (compute_return junk gamma (r1 ++ r2))
  = compute_return junk gamma r2.
Proof.
rewrite !compute_returnE /=; congr Some.
apply: (@eq_from_nth _ 0) => [|t].
  by rewrite size_drop !size_mkseq size_cat addKn.
rewrite size_drop size_mkseq size_cat addKn => lt.
by rewrite nth_drop !nth_mkseq ?discounted_return_cat // ltn_add2l.
Qed.

End Returns.

Section Loss.

Variable F : numFieldType.
Implicit Types (returns log_pi : tensor F).



(** X3.  On an empty episode the mean is NaN, and [returns] and [log_pi]
    of different lengths, neither of them 1, do not broadcast: in both
    cases there is no loss. *)
Theorem compute_reinforce_loss_undefined returns log_pi :
  size returns = 0%N
  \/ [&& size returns != size log_pi, size returns != 1%N
        & size log_pi != 1%N] ->
  compute_reinforce_loss returns log_pi = None.
Proof.
rewrite /compute_reinforce_loss /mean; case=> [->|/and3P[ne n1 n2]] //.
case: eqP => //= _; rewrite /mul /broadcast size_map.
by rewrite (negbTE ne) (negbTE n1) (negbTE n2).
Qed.

End Loss.

End ReturnMore.

(** ** More on the advantage estimator *)

Module GaeMore.

Import Torch GAE.

Section Facts.

Variable R : nzRingType.
Implicit Types (state_value reward terminated delta gae : tensor R).
Implicit Types (gamma lam : R).

(** The loop overwrites every entry [empty_like] left in the output. *)
Lemma gae_loop_junk delta (not_terminated : tensor R) df n g
    (arr1 arr2 : tensor R) :
  size arr1 = size arr2 -> (n <= size arr1)%N ->
  (forall t, (n <= t)%N -> nth 0 arr1 t = nth 0 arr2 t) ->
  gae_loop delta not_terminated df (g, arr1) n
  = gae_loop delta not_terminated df (g, arr2) n.
Proof.
elim: n g arr1 arr2 => [|n IH] g arr1 arr2 sz le ag.
  by have -> : arr1 = arr2 by apply: (@eq_from_nth _ 0) => // t _; apply: ag.
rewrite /gae_loop !rev_iotaS /= /gae_body.
case: (getitem delta n) => [d|] //=.
case: (getitem not_terminated n) => [m|] //=.
rewrite /setitem -sz le /=; apply: IH.
- by rewrite !size_set_nth_in -?sz.
- by rewrite size_set_nth_in // ltnW.
move=> t lt; rewrite !nth_set_nth /=; case: eqP => // /eqP ne.
by apply: ag; rewrite ltn_neqAle eq_sym ne.
Qed.

(** X4.  What [compute_gae] returns, or that it raises, does not depend
    on what [torch.empty_like] found in memory: no entry of the output is
    left as allocated.  This holds for every input, of any shape. *)
Theorem compute_gae_ignores_memory junk1 junk2 state_value reward terminated
    gamma lam :
  compute_gae junk1 state_value reward terminated gamma lam
  = compute_gae junk2 state_value reward terminated gamma lam.
Proof.
rewrite /compute_gae; case: (compute_delta _ _ _ _) => [delta|] //=.
rewrite (@gae_loop_junk _ _ _ _ _ _ (empty_like junk2 reward)) //.
- by rewrite !size_mkseq.
- by rewrite size_mkseq.
by move=> t le; rewrite !nth_default ?size_mkseq.
Qed.





End Facts.

End GaeMore.

(** ** One-step advantage actor-critic *)

Module ActorCritic.

Import Torch.

Section Losses.

Variable F : numFieldType.
Implicit Types (state_value next_state_value target_state_value : tensor F).
Implicit Types (reward terminated log_pi advantage : tensor F) (gamma : F).

(** [F.mse_loss(input, target)] on 1-D tensors.  A 0-dim tensor, such as
    the reward of one step, is the 1-D tensor of its one entry: it
    broadcasts against 1-D tensors in the same way. *)
Definition mse_loss1 (input target : tensor F) : option F :=
  d <- sub input target ;;
  mean [seq a ^+ 2 | a <- d].



Definition _compute_actor_loss log_pi advantage : option F :=
  weighted <- mul log_pi advantage ;;
  loss <- mean weighted ;;
  Some (- loss).

Definition _compute_critic_loss state_value target_state_value : option F :=
  mse_loss1 state_value target_state_value.


(** The one-step TD error of step [t]. *)
Definition td_error gamma state_value next_state_value reward terminated
    (t : nat) : F :=
  nth 0 reward t + (1 - nth 0 terminated t) * gamma * nth 0 next_state_value t
  - nth 0 state_value t.





End Losses.

End ActorCritic.

(** ** Batch advantage actor-critic ([a2c_batch_learning.ipynb]) *)

Module A2C.

Import Torch.

Section Train.

Variable F : numFieldType.
Implicit Types (state_value target_state_value reward terminated : tensor F).
Implicit Types (log_pi advantage : tensor F) (gamma lam : F).

Definition _compute_actor_loss log_pi advantage : option F :=
  weighted <- mul advantage log_pi ;;
  loss <- mean weighted ;;
  Some (- loss).

Definition _compute_critic_loss state_value target_state_value : option F :=
  ActorCritic.mse_loss1 state_value target_state_value.

(** [train], from the value [final_next_state_value] the network gives to
    [fianl_next_obs]: the actor loss and the critic loss it returns.
    [junk] is the memory [compute_gae] finds in [torch.empty_like]; the
    optimizer step on [actor_loss + value_loss_coef * critic_loss] is not
    part of this model. *)
Definition train (junk : nat -> F) gamma lam (final_next_state_value : F)
    reward terminated log_pi state_value : option (F * F) :=
  let state_value_with_final := state_value ++ [:: final_next_state_value] in
  advantage <- GAE.compute_gae junk state_value_with_final reward terminated
                 gamma lam ;;
  target_state_value <- add advantage state_value ;;
  actor_loss <- _compute_actor_loss log_pi advantage ;;
  critic_loss <- _compute_critic_loss state_value target_state_value ;;
  Some (actor_loss, critic_loss).

(** The losses of [train] in terms of the advantages. *)
Definition losses_of (advantage log_pi : tensor F) : F * F :=
  (- (sum [seq p.1 * p.2 | p <- zip advantage log_pi]
      / (size advantage)%:R),
   sum [seq a ^+ 2 | a <- advantage] / (size advantage)%:R).

Lemma train_from_advantage advantage log_pi state_value :
  (0 < size advantage)%N -> size log_pi = size advantage ->
  size state_value = size advantage ->
  (target_state_value <- add advantage state_value ;;
   actor_loss <- _compute_actor_loss log_pi advantage ;;
   critic_loss <- _compute_critic_loss state_value target_state_value ;;
   Some (actor_loss, critic_loss))
  = Some (losses_of advantage log_pi).
Proof.
move=> n0 el es; rewrite /add (broadcast_eq _ (esym es)) /=.
rewrite /_compute_actor_loss /mul (broadcast_eq _ (esym el)) /= /mean.
rewrite (size_zip_map *%R (esym el)) eqn0Ngt n0 /=.
have st : size state_value
          = size [seq p.1 + p.2 | p <- zip advantage state_value].
  by rewrite (size_zip_map +%R (esym es)).
rewrite /_compute_critic_loss /ActorCritic.mse_loss1 /sub.
rewrite (broadcast_eq _ st) /= /mean size_map.
rewrite (size_zip_map (fun a b => a - b) st) es eqn0Ngt n0 /=.
congr (Some (_, sum _ / _)); apply: (@eq_from_nth _ 0) => [|t].
  by rewrite !size_map size_zip -st minnn.
rewrite size_map (size_zip_map (fun a b => a - b) st) es => lt.
rewrite (nth_map 0) ?(size_zip_map (fun a b => a - b) st) ?es //.
rewrite (nth_zip_map (fun a b => a - b) 0 0 0 st) ?es //.
rewrite (nth_zip_map +%R 0 0 0 (esym es)) // (nth_map 0) //.
by rewrite [_ + nth 0 state_value t]addrC opprD addrA subrr sub0r sqrrN.
Qed.

Lemma trainE junk gamma lam final_next_state_value reward terminated log_pi
    state_value :
  (0 < size reward)%N -> size terminated = size reward ->
  size log_pi = size reward -> size state_value = size reward ->
  exists2 advantage,
    GAE.compute_gae junk (state_value ++ [:: final_next_state_value]) reward
      terminated gamma lam = Some advantage
    & size advantage = size reward /\
      train junk gamma lam final_next_state_value reward terminated log_pi
        state_value
      = Some (losses_of advantage log_pi).
Proof.
move=> n0 et el es.
have esv : size (state_value ++ [:: final_next_state_value])
           = (size reward).+1 by rewrite size_cat es addn1.
have [advantage run [sz _]] := GAE.compute_gae_rec junk gamma lam esv et.
exists advantage => //; split=> //; rewrite /train run /=.
by apply: train_from_advantage; rewrite sz.
Qed.


End Train.

(** *** The rollout buffer of the training loop

    The loop keeps the last steps in four lists of [n_steps] slots and a
    position [t]; the lists are not emptied when an episode ends, so the
    steps of all episodes go through the same loop body, one after the
    other. *)

Section Rollout.

Variable F : numFieldType.
Variables (junk : nat -> F) (gamma lam : F) (n_steps : nat).

(** What one pass of the loop body reads: the outcome of [select_action]
    and of [env.step], and the value of [next_obs] under the network of
    that moment. *)
Record step := Step {
  step_reward : F;
  step_terminated : bool;
  step_log_pi : F;
  step_state_value : F;
  step_next_state_value : F
}.

(** The variables of the loop; [trained] lists the losses of the calls of
    [train], oldest first. *)
Record rollout := Rollout {
  t : nat;
  reward_arr : seq (option F);
  terminated_arr : seq (option bool);
  log_pi_arr : seq (option F);
  state_value_arr : seq (option F);
  trained : seq (F * F)
}.

Definition reset_buffer (n : nat)
    : seq (option F) * seq (option bool) * seq (option F) * seq (option F) :=
  (nseq n None, nseq n None, nseq n None, nseq n None).

(** [torch.tensor(l)] on a list of numbers: [None] is no number. *)
Definition tensor_of_list T (l : seq (option T)) : option (seq T) := oseq l.

(** [torch.stack(l)] on a list of 0-dim tensors; it refuses the empty
    list. *)
Definition stack T (l : seq (option T)) : option (seq T) :=
  if l is [::] then None else oseq l.

Definition rollout_init : rollout :=
  let: (reward_arr, terminated_arr, log_pi_arr, state_value_arr) :=
    reset_buffer n_steps in
  Rollout 0 reward_arr terminated_arr log_pi_arr state_value_arr [::].

(** The body of the inner loop, from "update buffer" on. *)
Definition rollout_step (st : rollout) (d : step) : option rollout :=
  reward_arr <-
    Replay.list_setitem (reward_arr st) (Posz (t st)) (step_reward d) ;;
  terminated_arr <-
    Replay.list_setitem (terminated_arr st) (Posz (t st))
      (step_terminated d) ;;
  log_pi_arr <-
    Replay.list_setitem (log_pi_arr st) (Posz (t st)) (step_log_pi d) ;;
  state_value_arr <-
    Replay.list_setitem (state_value_arr st) (Posz (t st))
      (step_state_value d) ;;
  let t := (t st).+1 in
  if t == n_steps then
    reward <- tensor_of_list reward_arr ;;
    terminated <- tensor_of_list terminated_arr ;;
    log_pi <- stack log_pi_arr ;;
    state_value <- stack state_value_arr ;;
    l <- train junk gamma lam (step_next_state_value d) reward
           [seq (nat_of_bool b)%:R | b <- terminated] log_pi state_value ;;
    let: (reward_arr, terminated_arr, log_pi_arr, state_value_arr) :=
      reset_buffer n_steps in
    Some (Rollout 0 reward_arr terminated_arr log_pi_arr state_value_arr
            (rcons (trained st) l))
  else
    Some (Rollout t reward_arr terminated_arr log_pi_arr state_value_arr
            (trained st)).

Definition rollout_run (ds : seq step) : option rollout :=
  foldl (fun ost d => st <- ost ;; rollout_step st d) (Some rollout_init) ds.

(** [train] on the steps [c] of one batch. *)
Definition train_batch (c : seq step) : option (F * F) :=
  train junk gamma lam
    (step_next_state_value (last (Step 0 false 0 0 0) c))
    [seq step_reward d | d <- c]
    [seq (nat_of_bool (step_terminated d))%:R | d <- c]
    [seq step_log_pi d | d <- c]
    [seq step_state_value d | d <- c].

(** A list of [n_steps] slots whose first ones hold [xs]. *)
Definition slots T (xs : seq T) : seq (option T) :=
  [seq Some x | x <- xs] ++ nseq (n_steps - size xs) None.

Lemma oseq_map_Some T (l : seq T) : oseq [seq Some x | x <- l] = Some l.
Proof. by elim: l => //= a l ->. Qed.

Lemma setitem_slots T (xs : seq T) (v : T) :
  (size xs < n_steps)%N ->
  Replay.list_setitem (slots xs) (Posz (size xs)) v = Some (slots (rcons xs v)).
Proof.
move=> lt; have lts : (size xs < size (slots xs))%N.
  by rewrite size_cat size_map size_nseq subnKC // ltnW.
rewrite (Replay.list_setitem_nat v lts) {lts}.
congr Some; rewrite /slots size_rcons.
elim: xs n_steps lt => [|a xs IH] [|n] //=; first by rewrite subn1.
by rewrite ltnS !subSS => lt; rewrite (IH n).
Qed.

Lemma slots_full T (xs : seq T) :
  size xs = n_steps -> slots xs = [seq Some x | x <- xs].
Proof. by move=> e; rewrite /slots e subnn cats0. Qed.

Lemma rollout_run_rcons ds d :
  rollout_run (rcons ds d) = (st <- rollout_run ds ;; rollout_step st d).
Proof. by rewrite /rollout_run -cats1 foldl_cat. Qed.

Lemma divn_modn_succ k n :
  (0 < n)%N ->
  (if (k %% n).+1 == n then (k.+1 %/ n = (k %/ n).+1) /\ (k.+1 %% n = 0)
   else (k.+1 %/ n = k %/ n) /\ (k.+1 %% n = (k %% n).+1))%N.
Proof.
move=> n0; have lt := ltn_pmod k n0.
have ek : k.+1 = (k %/ n * n + (k %% n).+1)%N by rewrite addnS -divn_eq.
case: eqP => [e|/eqP ne]; rewrite ek.
  by rewrite e -mulSnr mulnK // modnMl.
have lt' : ((k %% n).+1 < n)%N by rewrite ltn_neqAle ne.
by rewrite divnMDl // modnMDl (divn_small lt') (modn_small lt') addn0.
Qed.

(** Batch number [i] of the steps [ds], and the steps after the last
    whole batch. *)
Definition batch (ds : seq step) (i : nat) : seq step :=
  take n_steps (drop (i * n_steps) ds).

Definition pending (ds : seq step) : seq step :=
  drop (size ds %/ n_steps * n_steps)%N ds.

Lemma size_pending ds :
  (0 < n_steps)%N -> size (pending ds) = (size ds %% n_steps)%N.
Proof.
by move=> n0; rewrite size_drop {1}(divn_eq (size ds) n_steps) addKn.
Qed.

Lemma batch_rcons ds d i :
  (i.+1 * n_steps <= size ds)%N -> batch (rcons ds d) i = batch ds i.
Proof.
move=> le; have le' : (i * n_steps <= size ds)%N.
  by apply: leq_trans le; rewrite leq_mul2r leqnSn orbT.
rewrite /batch drop_rcons // -cats1 take_cat size_drop.
have le2 : (n_steps <= size ds - i * n_steps)%N.
  by rewrite leq_subRL // -mulSnr.
case: ltnP => // ge; have e : (size ds - i * n_steps)%N = n_steps.
  by apply/eqP; rewrite eqn_leq ge le2.
by rewrite e subnn take0 cats0 take_oversize // size_drop e.
Qed.

(** X12.  With [n_steps >= 1] the loop never fails: after the steps [ds]
    the position is [size ds mod n_steps], [train] has been called
    [size ds / n_steps] times, call number [i] on steps [i * n_steps] to
    [i * n_steps + n_steps - 1] in their order, with the next state of
    the last of them as final next state, and each call returned; the
    steps since the last call fill the first slots of the lists, the
    other slots are free.  No step is dropped and none is used twice. *)
Theorem rollout_trains_on_batches ds :
  (0 < n_steps)%N ->
  exists2 st,
    rollout_run ds = Some st
    & [/\ t st = (size ds %% n_steps)%N,
          [seq Some l | l <- trained st]
          = [seq train_batch (batch ds i) | i <- iota 0 (size ds %/ n_steps)%N]
        & [/\ reward_arr st = slots [seq step_reward d | d <- pending ds],
               terminated_arr st
               = slots [seq step_terminated d | d <- pending ds],
               log_pi_arr st = slots [seq step_log_pi d | d <- pending ds]
             & state_value_arr st
               = slots [seq step_state_value d | d <- pending ds]]].
Proof.
move=> n0; elim/last_ind: ds => [|ds d [st run [et etr [er ete el es]]]].
  exists rollout_init => //.
  by rewrite /rollout_init /pending /= div0n mod0n /slots /= subn0.
rewrite rollout_run_rcons run /= {run}.
have := divn_modn_succ (size ds) n0; rewrite -(size_rcons ds d).
have sp := size_pending ds n0.
have leq : (size ds %/ n_steps * n_steps <= size ds)%N by rewrite leq_trunc_div.
have ltr : (size ds %% n_steps < n_steps)%N by rewrite ltn_pmod.
have batches :
    [seq train_batch (batch (rcons ds d) i)
    | i <- iota 0 (size ds %/ n_steps)%N]
    = [seq Some l | l <- trained st].
  rewrite etr; apply/eq_in_map => i.
  rewrite mem_iota add0n => /andP[_ lt]; rewrite batch_rcons //.
  by apply: leq_trans leq; rewrite leq_mul2r lt orbT.
have ed : drop (size ds %/ n_steps * n_steps)%N (rcons ds d)
          = rcons (pending ds) d by rewrite drop_rcons.
have sets T (f : step -> T) :
    Replay.list_setitem (slots [seq f x | x <- pending ds])
      (Posz (size ds %% n_steps)%N) (f d)
    = Some (slots [seq f x | x <- rcons (pending ds) d]).
  by rewrite map_rcons -{1}sp -(size_map f) setitem_slots // size_map sp.
rewrite /rollout_step et er ete el es !sets /=.
have spd : size (rcons (pending ds) d) = ((size ds %% n_steps).+1)%N.
  by rewrite size_rcons sp.
case: eqP => [e|ne] [eq' er'].
  have full T (f : step -> T) :
      slots [seq f x | x <- rcons (pending ds) d]
      = [seq Some y | y <- [seq f x | x <- rcons (pending ds) d]].
    by rewrite slots_full // size_map spd.
  have stackE T (f : step -> T) :
      stack [seq Some y | y <- [seq f x | x <- rcons (pending ds) d]]
      = Some [seq f x | x <- rcons (pending ds) d].
    rewrite /stack -[in RHS]oseq_map_Some.
    by case: (rcons _ _) spd.
  rewrite !full /tensor_of_list !oseq_map_Some /= !stackE /= -map_comp.
  have eb : batch (rcons ds d) (size ds %/ n_steps)%N = rcons (pending ds) d.
    by rewrite /batch ed take_oversize // spd e.
  have -> : train junk gamma lam (step_next_state_value d)
              [seq step_reward x | x <- rcons (pending ds) d]
              [seq ((nat_of_bool (step_terminated x))%:R : F)
              | x <- rcons (pending ds) d]
              [seq step_log_pi x | x <- rcons (pending ds) d]
              [seq step_state_value x | x <- rcons (pending ds) d]
            = train_batch (batch (rcons ds d) (size ds %/ n_steps)%N).
    by rewrite eb /train_batch last_rcons.
  have h0 : (0 < size [seq step_reward x | x <- rcons (pending ds) d])%N.
    by rewrite size_map spd.
  have ht : size [seq ((nat_of_bool (step_terminated x))%:R : F)
                 | x <- rcons (pending ds) d]
            = size [seq step_reward x | x <- rcons (pending ds) d].
    by rewrite !size_map.
  have hl : size [seq step_log_pi x | x <- rcons (pending ds) d]
            = size [seq step_reward x | x <- rcons (pending ds) d].
    by rewrite !size_map.
  have hs : size [seq step_state_value x | x <- rcons (pending ds) d]
            = size [seq step_reward x | x <- rcons (pending ds) d].
    by rewrite !size_map.
  have [adv _ [_ tr]] :=
    trainE junk gamma lam (step_next_state_value d) h0 ht hl hs.
  have trb : train_batch (batch (rcons ds d) (size ds %/ n_steps)%N)
             = Some (losses_of adv
                       [seq step_log_pi x | x <- rcons (pending ds) d]).
    by rewrite eb /train_batch last_rcons; exact: tr.
  rewrite trb /=; eexists; first by [].
  have ep : pending (rcons ds d) = [::].
    by rewrite /pending eq' drop_oversize // size_rcons ltn_ceil.
  rewrite /= er' eq' ep iota0S map_cat map_rcons -cats1 batches /= trb.
  by rewrite /slots /= subn0.
eexists; first by [].
by rewrite /= er' eq' batches /pending eq' ed.
Qed.

(** X13.  With [n_steps = 0] the lists have no slot: the first step of
    the loop fails on [reward_arr[0] = reward], and nothing is trained. *)
Theorem rollout_without_slots d ds :
  n_steps = 0%N -> rollout_run (d :: ds) = None.
Proof.
move=> n0; rewrite /rollout_run /= /rollout_init /reset_buffer n0 /=.
by elim: ds.
Qed.

End Rollout.

End A2C.

(** ** The replay buffer with several environments *)

Module ReplayMore.

Import Replay.

Section Vectorized.

Variable item : Type.

Notation experience := (Experience.t item).
Notation ReplayBuffer := (ReplayBuffer item).
Notation transition := (transition item).

Implicit Types (rb : ReplayBuffer) (e : experience) (h : seq transition).

(** Every array of the experience has at least [n] rows. *)
Definition has_rows e (n : nat) : bool :=
  [&& (n <= size (Experience.obs e))%N,
      (n <= size (Experience.action e))%N,
      (n <= size (Experience.next_obs e))%N,
      (n <= size (Experience.reward e))%N
    & (n <= size (Experience.terminated e))%N].

(** The first [n] rows of an experience. *)
Definition rows e (n : nat) : seq transition := pmap (row5 e) (iota 0 n).

Lemma has_rows_row5 e n i :
  has_rows e n -> (i < n)%N -> exists x, row5 e i = Some x.
Proof.
case/and5P=> s1 s2 s3 s4 s5 lt; rewrite /row5.
have [o ->] := row_some (leq_trans lt s1).
have [a ->] := row_some (leq_trans lt s2).
have [n' ->] := row_some (leq_trans lt s3).
have [r ->] := row_some (leq_trans lt s4).
have [t ->] := row_some (leq_trans lt s5).
by exists (o, a, n', r, t).
Qed.

Lemma has_rowsW e n : has_rows e n.+1 -> has_rows e n.
Proof. by case/and5P=> *; apply/and5P; split; apply: ltnW. Qed.

Lemma size_rows e n : has_rows e n -> size (rows e n) = n.
Proof.
elim: n => // n IH hr; have [x ex] := has_rows_row5 hr (ltnSn n).
by rewrite /rows iota0S pmap_cat /= ex size_cat /= addn1 -/(rows e n)
           (IH (has_rowsW hr)).
Qed.

Lemma nth_rows e n i :
  has_rows e n -> (i < n)%N ->
  nth None [seq Some x | x <- rows e n] i = row5 e i.
Proof.
elim: n i => // n IH i hr; have [x ex] := has_rows_row5 hr (ltnSn n).
have sz := size_rows (has_rowsW hr).
rewrite /rows iota0S pmap_cat /= ex -/(rows e n) map_cat nth_cat size_map sz.
rewrite ltnS leq_eqVlt => /orP[/eqP->|lt]; first by rewrite ltnn subnn.
by rewrite lt (IH i (has_rowsW hr)).
Qed.

Lemma add_rows_returns e rb h n :
  tracks rb h -> (0 < capacity rb)%N -> has_rows e n ->
  exists rb', add_rows e rb n = Some rb'.
Proof.
move=> tr c0; elim: n => [|n IH] hr; first by exists rb.
have [rb1 e1] := IH (has_rowsW hr); rewrite add_rowsS e1 /=.
have [[sz _ _ _] _ [_ _ ec _ _]] := add_rowsP tr e1.
have [x ex] := has_rows_row5 hr (ltnSn n).
by rewrite add_rowE ?ec // ex /=; eexists.
Qed.

Lemma minn_add m k c : minn (minn m c + k) c = minn (m + k) c.
Proof.
case: (leqP c m) => [le|lt] //.
rewrite (minn_idPr (leq_trans le (leq_addr k m))).
by apply/minn_idPr; rewrite leq_addr.
Qed.

(** X14.  [add] with any number of environments, on a buffer of capacity
    [C >= 1] in a state it can be in, with [h] added since the last
    [reset]: when every array of the experience has at least [num_envs]
    rows, [add] returns, counts one step, sets [count] to
    [min (count + num_envs) C], and writes row [i] into slot
    [(size h + i) mod C], so that the last [C] of the rows added so far
    are in the buffer; rows beyond [num_envs] are not stored. *)
Theorem add_stores_num_envs_rows rb h e :
  reachable rb h -> (0 < capacity rb)%N -> has_rows e (num_envs rb) ->
  exists2 rb',
    add rb e = Some rb'
    & [/\ reachable rb' (h ++ rows e (num_envs rb)),
          size (rows e (num_envs rb)) = num_envs rb,
          n_step rb' = (n_step rb + 1)%N,
          count rb' = minn (count rb + num_envs rb) (capacity rb)
        & (forall i, (i < num_envs rb)%N ->
             (num_envs rb <= i + capacity rb)%N ->
             stored rb' ((size h + i) %% capacity rb) = row5 e i)
          /\ (forall k, (k < size h)%N ->
                (size h + num_envs rb <= k + capacity rb)%N ->
                stored rb' (k %% capacity rb)
                = nth None [seq Some x | x <- h] k)].
Proof.
move=> re c0 hr; have tr := reachable_tracks re.
have [rb' ea] : exists rb', add rb e = Some rb'.
  exact: (@add_rows_returns e (set_n_step rb (n_step rb + 1)) h).
exists rb' => //.
have re' := reach_add re ea.
have [_ ec' _ win] := reachable_tracks re'.
have [_ _ [_ _ ecap _ en]] :=
  add_rowsP (rb := set_n_step rb (n_step rb + 1)) tr ea.
have [_ ec _ _] := tr.
have sz := size_rows hr.
rewrite /= in ecap en.
split=> //.
- by rewrite ec' ec ecap size_cat sz minn_add.
split=> [i lt le|k lt le].
- have := win (size h + i)%N; rewrite size_cat sz ltn_add2l -addnA leq_add2l.
  rewrite ecap => /(_ lt le) ->.
  rewrite map_cat nth_cat size_map ltnNge leq_addr /= addKn.
  exact: nth_rows.
have ltk : (k < size h + num_envs rb)%N.
  by apply: leq_trans lt _; rewrite leq_addr.
have := win k; rewrite size_cat sz ecap => /(_ ltk le) ->.
by rewrite map_cat nth_cat size_map lt.
Qed.

Lemma add_row_without_row e rb i : row5 e i = None -> add_row e rb i = None.
Proof.
rewrite /row5 /add_row; case: ifP => // _.
case: (row (Experience.obs e) i) => [o|] //=.
case: (list_setitem (obs rb) _ o) => [l1|] //=;
  case: (row (Experience.action e) i) => [a|] //=.
case: (list_setitem (action rb) _ a) => [l2|] //=;
  case: (row (Experience.next_obs e) i) => [n|] //=.
case: (list_setitem (next_obs rb) _ n) => [l3|] //=;
  case: (row (Experience.reward e) i) => [r|] //=.
case: (list_setitem (reward rb) _ r) => [l4|] //=;
  by case: (row (Experience.terminated e) i).
Qed.

Lemma add_rows_without_row e rb n i :
  (i < n)%N -> row5 e i = None -> add_rows e rb n = None.
Proof.
move=> lt ex; elim: n lt => // n IH; rewrite ltnS leq_eqVlt add_rowsS.
case/orP=> [/eqP ei|/IH -> //].
by case: (add_rows e rb n) => //= rb1; rewrite -ei add_row_without_row.
Qed.

(** X15.  [add] fails, in any state whatever, when the buffer has no
    capacity and at least one environment ([ZeroDivisionError]), and
    when an array of the experience has fewer than [num_envs] rows
    ([IndexError]). *)
Theorem add_raises rb e :
  (capacity rb == 0%N) && (0 < num_envs rb)%N || ~~ has_rows e (num_envs rb) ->
  add rb e = None.
Proof.
case/orP=> [/andP[/eqP c0 n0]|].
  rewrite /add /=; case: (num_envs rb) n0 => // n _.
  elim: n => [|n IH]; first by rewrite /add_rows /= /add_row /= c0.
  by rewrite add_rowsS IH.
rewrite /has_rows !negb_and -!ltnNge => short.
have [i lt ex] : exists2 i, (i < num_envs rb)%N & row5 e i = None.
  have none (a : seq item) : (size a < num_envs rb)%N ->
      (size a < num_envs rb)%N /\ row a (size a) = None.
    by move=> lt; split=> //; rewrite /row nth_default // size_map.
  case/or4P: short => [/none[lt ex]|/none[lt ex]|/none[lt ex]|].
  - by exists (size (Experience.obs e)) => //; rewrite /row5 ex.
  - exists (size (Experience.action e)) => //; rewrite /row5 ex.
    by case: (row (Experience.obs e) _).
  - exists (size (Experience.next_obs e)) => //; rewrite /row5 ex.
    case: (row (Experience.obs e) _) => //= _.
    by case: (row (Experience.action e) _).
  case/orP=> /none[lt ex].
  - exists (size (Experience.reward e)) => //; rewrite /row5 ex.
    case: (row (Experience.obs e) _) => //= _.
    case: (row (Experience.action e) _) => //= _.
    by case: (row (Experience.next_obs e) _).
  exists (size (Experience.terminated e)) => //; rewrite /row5 ex.
  case: (row (Experience.obs e) _) => //= _.
  case: (row (Experience.action e) _) => //= _.
  case: (row (Experience.next_obs e) _) => //= _.
  by case: (row (Experience.reward e) _).
exact: (add_rows_without_row _ lt ex).
Qed.

End Vectorized.

End ReplayMore.

(** ** The epsilon-greedy policy *)

Module Policy.

Import Torch.

Section EpsilonGreedy.

Variable F : realFieldType.
Implicit Types (q_values : matrix F) (epsilon : F) (r q : tensor F).

(** [argmax] along a row: the index of its first maximal value; a row
    without an entry has none. *)
Definition row_argmax r : option nat :=
  m <- row_max r ;; Some (index m r).

(** [q_values.argmax(dim=1, keepdim=True)]: one index for every row. *)
Definition argmax_dim1 q_values : option (seq nat) :=
  oseq [seq row_argmax r | r <- q_values].

(** [torch.full_like(q_values, v)]. *)
Definition full_like q_values (v : F) : matrix F :=
  [seq nseq (size r) v | r <- q_values].

(** [x.scatter_(1, index, value)] with an index of one column: row [i] of
    [index] names the entry of row [i] of [x] that is set to [value];
    rows of [x] beyond those of [index] are left alone, and an index with
    more rows than [x], or one that is no position of its row, fails. *)
Definition scatter_dim1 (x : matrix F) (index : seq nat) (value : F)
    : option (matrix F) :=
  if (size index <= size x)%N then
    d <- oseq [seq setitem p.1 p.2 value | p <- zip x index] ;;
    Some (d ++ drop (size index) x)
  else None.

(** The probabilities [sample] hands to [Categorical]; [num_actions] is
    [q_values.shape[1]], the length of every row, and a division by
    [num_actions = 0] or an [argmax] over no action fails. *)
Definition epsilon_greedy_prob epsilon (num_actions : nat) q_values
    : option (matrix F) :=
  if num_actions == 0%N then None else
  let greedy_action_prob := 1 - epsilon + epsilon / num_actions%:R in
  let non_greedy_action_prob := epsilon / num_actions%:R in
  greedy_action <- argmax_dim1 q_values ;;
  let epsilon_greedy_prob := full_like q_values non_greedy_action_prob in
  scatter_dim1 epsilon_greedy_prob greedy_action greedy_action_prob.

(** [g] is the greedy action of the row [q]: the first of the actions of
    the largest value. *)
Definition greedy q (g : nat) : Prop :=
  [/\ (g < size q)%N,
      forall j, (j < size q)%N -> nth 0 q j <= nth 0 q g
    & forall j, (j < g)%N -> nth 0 q j < nth 0 q g].

Lemma row_argmaxP q :
  (0 < size q)%N -> exists2 g, row_argmax q = Some g & greedy q g.
Proof.
case: q => [|x r] // _; rewrite /row_argmax /= foldl_max.
have [] := @max_qP _ (x :: r) isT; rewrite /max_q /=.
set m := \big[_/_]_(_ <- r) _ => mem le.
exists (index m (x :: r)) => //; split.
- by rewrite index_mem.
- by move=> j lt; rewrite nth_index // le // mem_nth.
move=> j lt; have ltj : (j < size (x :: r))%N.
  by rewrite (ltn_trans lt) // index_mem.
rewrite nth_index // lt_neqAle (le _ (mem_nth 0 ltj)) andbT.
by have := before_find 0 lt; rewrite /= => ->.
Qed.

Lemma sum_set_nth (s : tensor F) g (v : F) :
  (g < size s)%N -> sum (set_nth 0 s g v) = sum s - nth 0 s g + v.
Proof.
elim: s g => [|a s IH] [|g] //=; rewrite /sum /= -/(sum _).
  by move=> _; rewrite [a + _]addrC addrK addrC.
by rewrite ltnS => /IH ->; rewrite !addrA.
Qed.

Lemma sum_const n (c : F) : sum (nseq n c) = n%:R * c.
Proof.
elim: n => [|n IH] /=; first by rewrite mul0r.
by rewrite /sum /= -/(sum _) IH -natr1 mulrDl mul1r addrC.
Qed.

(** The row of probabilities of a row of values. *)
Definition prob_row epsilon (n g : nat) : tensor F :=
  set_nth 0 (nseq n (epsilon / n%:R)) g (1 - epsilon + epsilon / n%:R).

Lemma argmax_dim1P n q_values :
  (0 < n)%N -> all (fun q => size q == n) q_values ->
  exists2 gs,
    argmax_dim1 q_values = Some gs
    & size gs = size q_values
      /\ forall i, (i < size q_values)%N ->
           greedy (nth [::] q_values i) (nth 0%N gs i).
Proof.
move=> n0; rewrite /argmax_dim1.
elim: q_values => [|q qs IH] /=; first by exists [::].
case/andP=> /eqP sq /IH[gs -> [sz gr]] {IH}.
have [g -> grg] /= : exists2 g, row_argmax q = Some g & greedy q g.
  by apply: row_argmaxP; rewrite sq.
by exists (g :: gs) => //; split=> /= [|[|i] // /gr]; rewrite ?sz.
Qed.

Lemma scatter_dim1_full n q_values gs (c v : F) :
  all (fun q => size q == n) q_values -> size gs = size q_values ->
  (forall i, (i < size q_values)%N -> (nth 0%N gs i < n)%N) ->
  scatter_dim1 (full_like q_values c) gs v
  = Some [seq set_nth 0 (nseq n c) g v | g <- gs].
Proof.
move=> al sz lt; rewrite /scatter_dim1 size_map sz leqnn -sz.
rewrite drop_oversize ?size_map ?sz // -[in RHS](cats0 [seq _ | g <- gs]).
suff -> : oseq [seq setitem p.1 p.2 v | p <- zip (full_like q_values c) gs]
          = Some [seq set_nth 0 (nseq n c) g v | g <- gs] by [].
elim: q_values gs al sz lt => [|q qs IH] [|g gs] //= /andP[/eqP sq al] [sz] lt.
rewrite /setitem size_nseq sq (lt 0%N) //= IH //.
by move=> i lti; apply: (lt i.+1).
Qed.

Lemma epsilon_greedy_probE epsilon n q_values :
  (0 < n)%N -> all (fun q => size q == n) q_values ->
  exists2 gs,
    argmax_dim1 q_values = Some gs
    & [/\ size gs = size q_values,
          forall i, (i < size q_values)%N ->
            greedy (nth [::] q_values i) (nth 0%N gs i)
        & epsilon_greedy_prob epsilon n q_values
          = Some [seq prob_row epsilon n g | g <- gs]].
Proof.
move=> n0 al; have [gs eg [sz gr]] := argmax_dim1P n0 al.
exists gs => //; split=> //.
rewrite /epsilon_greedy_prob eqn0Ngt n0 eg /=.
apply: scatter_dim1_full => // i lt; have [ltg _ _] := gr i lt.
by rewrite -(eqP (allP al _ (mem_nth [::] lt))).
Qed.

(** X16.  On values for [n >= 1] actions the policy returns, for every
    row, a probability distribution: the entries add up to one (so
    [Categorical] takes them as they are), the greedy action, the first
    of those of the largest value, has probability
    [1 - epsilon + epsilon / n] and every other action [epsilon / n]. *)
Theorem epsilon_greedy_distribution epsilon n q_values :
  (0 < n)%N -> all (fun q => size q == n) q_values ->
  exists2 probs,
    epsilon_greedy_prob epsilon n q_values = Some probs
    & size probs = size q_values /\
      forall i, (i < size q_values)%N ->
        let p := nth [::] probs i in
        [/\ size p = n, sum p = 1
          & exists2 g, greedy (nth [::] q_values i) g
            & forall j, (j < n)%N ->
                nth 0 p j = if j == g then 1 - epsilon + epsilon / n%:R
                            else epsilon / n%:R].
Proof.
move=> n0 al; have [gs _ [sz gr ->]] := epsilon_greedy_probE epsilon n0 al.
eexists; first by []; rewrite size_map; split=> // i lt /=.
rewrite (nth_map 0%N) ?sz //; have [ltg leg ltf] := gr i lt.
have sq : size (nth [::] q_values i) = n.
  by apply/eqP; apply: (allP al); rewrite mem_nth.
have ltn : (nth 0%N gs i < size (nseq n (epsilon / n%:R)))%N.
  by rewrite size_nseq -sq.
split.
- by rewrite /prob_row size_set_nth size_nseq; apply/maxn_idPr; rewrite -sq.
- rewrite /prob_row sum_set_nth // nth_nseq -sq ltg sq sum_const.
  rewrite mulrCA mulfV ?mulr1 ?pnatr_eq0 -?lt0n //.
  by rewrite addrACA addNr addr0 addrC subrK.
exists (nth 0%N gs i) => // j ltj.
by rewrite /prob_row nth_set_nth /= nth_nseq ltj.
Qed.

(** X17.  With [0 <= epsilon <= 1] every probability is between 0 and 1,
    and the greedy action is at least as likely as any other. *)
Theorem epsilon_greedy_bounds epsilon n q_values :
  (0 < n)%N -> all (fun q => size q == n) q_values ->
  0 <= epsilon <= 1 ->
  exists2 probs,
    epsilon_greedy_prob epsilon n q_values = Some probs
    & all (all (fun x => 0 <= x <= 1)) probs
      /\ epsilon / n%:R <= 1 - epsilon + epsilon / n%:R.
Proof.
move=> n0 al /andP[e0 e1].
have [gs _ [sz gr ->]] := epsilon_greedy_probE epsilon n0 al.
have n1 : 1 <= n%:R :> F by rewrite ler1n.
have np : 0 < n%:R :> F by rewrite ltr0n.
have ng0 : 0 <= epsilon / n%:R by rewrite divr_ge0 // ltW.
have ng1 : epsilon / n%:R <= epsilon by rewrite ler_pdivrMr // ler_peMr.
have gp : epsilon / n%:R <= 1 - epsilon + epsilon / n%:R.
  by rewrite lerDr subr_ge0.
have g0 : 0 <= 1 - epsilon + epsilon / n%:R by rewrite addr_ge0 // subr_ge0.
have g1 : 1 - epsilon + epsilon / n%:R <= 1.
  by rewrite -addrA gerDl addrC subr_le0.
eexists; first by []; split=> //.
apply/allP=> p /mapP[g _ ->]; apply/(all_nthP 0) => j _.
rewrite /prob_row nth_set_nth /= nth_nseq.
case: eqP => _; first by rewrite g0 g1.
by case: ifP => _; rewrite ?lexx ?ler01 // ng0 (le_trans ng1 e1).
Qed.

End EpsilonGreedy.

End Policy.

(** ** The agent: the schedule of epsilon, the logged loss, the counters *)

Module DqnMore.

Import Torch Dqn.

Section Agent.

Variable F : realFieldType.
Variable item : Type.
Variable net : Type.
Variable learn : net -> Replay.batches item -> option (net * F).
Variable rng : nat -> seq nat.

Notation DQN := (DQN F item net).
Notation DQNConfig := (DQNConfig F).
Notation run := (run learn rng).
Notation update := (update learn rng).
Notation train := (train learn rng).
Notation train_epoch := (train_epoch learn rng).
Notation train_epochs := (train_epochs learn rng).

Implicit Types (s : DQN) (cfg : DQNConfig).

(** *** The schedule of epsilon *)







(** X19.  When the schedule is given going up, [end_value > start_value],
    the bounds of [np.clip] are crossed and epsilon is [start_value] at
    every time step. *)
Theorem epsilon_decay_crossed_bounds s t s' start_t end_t start_value
    end_value :
  epsilon_linear_decay (config s) = (start_t, end_t, start_value, end_value) ->
  start_value < end_value ->
  _epsilon_decay s t = Some s' -> epsilon s' = start_value.
Proof.
move=> ec lt; rewrite /_epsilon_decay ec; case: eqP => // _ [<-] /=.
rewrite /clip; apply/min_idPl.
by rewrite le_max (ltW lt) orbT.
Qed.

(** *** The logged loss *)

(** [td_loss.item()] of the turn of the loop of [train] in state [s]. *)
Definition epoch_loss s : option F :=
  exp_batch <-
    (Replay.sample (replay_buffer s) (rng (training_step s))).2 ;;
  r <- learn (network s) exp_batch ;;
  Some r.2.

(** The losses of [n] turns from state [s] on, as far as they go. *)
Fixpoint td_losses s (n : nat) : seq F :=
  if n is n'.+1 then
    match epoch_loss s, train_epoch s with
    | Some l, Some s' => l :: td_losses s' n'
    | _, _ => [::]
    end
  else [::].



Lemma train_epoch_loss s s' :
  train_epoch s = Some s' ->
  exists2 l,
    epoch_loss s = Some l
    & [/\ num_losses s' = (num_losses s).+1,
          training_step s' = (training_step s).+1,
          global_time_step s' = global_time_step s, epsilon s' = epsilon s
        & avg_loss s'
          = avg_loss s + 1 / (num_losses s).+1%:R * (l - avg_loss s)].
Proof.
rewrite /train_epoch /epoch_loss /Replay.sample /=.
case: (X in obind _ X) => [b|] //=.
case: (learn _ _) => [[nw l]|] //= [<-] /=.
by exists l => //; rewrite !addn1.
Qed.

Lemma train_epochsS s n :
  train_epochs s n.+1 = (s1 <- train_epoch s ;; train_epochs s1 n).
Proof.
rewrite /Dqn.train_epochs.
have it (z : option DQN) l :
    foldl (fun st (_ : nat) => s0 <- st ;; train_epoch s0) z l
    = iter (size l) (fun st => s0 <- st ;; train_epoch s0) z.
  by elim/last_ind: l => // l x IH; rewrite -cats1 foldl_cat size_cat addn1 /=
                                            IH.
rewrite it size_iota iterSr /=; case: (train_epoch s) => [s1|] /=.
  by rewrite it size_iota.
by elim: n => //= n ->.
Qed.

Lemma mean_step (a l : F) (k : nat) :
  (a + 1 / k.+1%:R * (l - a)) * k.+1%:R = a * k%:R + l.
Proof.
have nz : k.+1%:R != 0 :> F by rewrite pnatr_eq0.
rewrite mulrDl mul1r mulrAC mulVf // mul1r -natr1 mulrDr mulr1.
by rewrite -addrA [a + _]addrC subrK.
Qed.

Lemma train_epochs_mean s n s' :
  train_epochs s n = Some s' ->
  [/\ size (td_losses s n) = n,
      num_losses s' = (num_losses s + n)%N,
      training_step s' = (training_step s + n)%N,
      global_time_step s' = global_time_step s /\ epsilon s' = epsilon s
    & avg_loss s' * (num_losses s')%:R
      = avg_loss s * (num_losses s)%:R + sum (td_losses s n)].
Proof.
elim: n s => [|n IH] s.
  by rewrite /Dqn.train_epochs /= => -[<-]; rewrite !addn0 /sum /= addr0.
rewrite train_epochsS; case e1: (train_epoch s) => [s1|] //= /IH.
have [l el [n1 t1 g1 p1 a1]] := train_epoch_loss e1.
rewrite /= el e1 /= => -[-> -> -> [-> ->] ->].
rewrite n1 t1 g1 p1 !addSnnS; split=> //.
by rewrite a1 mean_step /sum /= addrA.
Qed.



(** *** The counters *)

Definition is_train (ev : event) : bool :=
  if ev is EvTrain _ _ then true else false.

(** What the counters count, in terms of the events so far. *)
Definition counted cfg s : Prop :=
  [/\ config s = cfg,
      global_time_step s = seq.count is_add (log s),
      training_step s = seq.count is_sample (log s)
    & seq.count is_sample (log s)
      = (epoch cfg * seq.count is_train (log s))%N].

Lemma _epsilon_decay_counters s t s' :
  _epsilon_decay s t = Some s' ->
  [/\ config s' = config s, log s' = log s,
      global_time_step s' = global_time_step s,
      training_step s' = training_step s
    & replay_buffer s' = replay_buffer s].
Proof.
rewrite /_epsilon_decay; case: (epsilon_linear_decay _) => [[[a b] c] d].
by case: eqP => // _ [<-].
Qed.

Lemma counted_update cfg s e s' :
  counted cfg s -> update s e = Some s' -> counted cfg s'.
Proof.
move=> [ec eg et es]; rewrite /Dqn.update.
case ea: (Replay.add _ e) => [rb|] //=.
case: ifP => [_|_ [<-]]; last first.
  by split; rewrite //= ?eg ?addn1 ?add0n // add1n.
case etr: (Dqn.train _ _ _) => [s1|] //= /_epsilon_decay_counters.
case=> c2 l2 g2 t2 _.
have [c1 l1 _] := train_epochsP etr.
have [_ _ t1 [g1 _] _] := train_epochs_mean etr.
rewrite /counted c2 l2 g2 t2 c1 l1 g1 t1 /= ec; split=> //.
- by rewrite count_cat count_nseq /= ?mul0n ?add0n eg addn1 add1n.
- by rewrite count_cat count_nseq /= ?mul1n ?add0n et addnC.
by rewrite !count_cat !count_nseq /= ?mul1n ?mul0n ?add0n add1n mulnS es.
Qed.

(** X22.  After a run of the loop on the experiences [es], from a fresh
    agent: [global_time_step] is the number of experiences, all of them
    added to the buffer; [training_step] is the number of batches
    sampled, [epoch] for every invocation of [train]. *)
Theorem run_counters cfg nw ne es s :
  run (init item cfg nw ne) es = Some s ->
  [/\ global_time_step s = size es,
      seq.count is_add (history s) = size es,
      training_step s = seq.count is_sample (history s)
    & training_step s = (epoch cfg * seq.count is_train (history s))%N].
Proof.
rewrite /history !count_rev.
suff gen s0 : counted cfg s0 -> run s0 es = Some s ->
    counted cfg s
    /\ global_time_step s = (global_time_step s0 + size es)%N.
  have c0 : counted cfg (init item cfg nw ne) by split; rewrite //= muln0.
  case/(gen _ c0)=> [[ec eg et es'] e0].
  by split; rewrite -?es' -?et -?eg // e0.
elim/last_ind: es s => [|es e IH] s c0.
  by rewrite /Dqn.run /= => -[<-]; rewrite addn0.
rewrite /Dqn.run -cats1 foldl_cat /= -/(run s0 es).
case er: (run s0 es) => [s1|] //= eu.
have [c1 g1] := IH s1 c0 er; split; first exact: counted_update eu.
have [_ gs _ _] := counted_update c1 eu; have [_ gs1 _ _] := c1.
move: eu gs; rewrite /Dqn.update; case: (Replay.add _ e) => [rb|] //=.
case: ifP => [_|_ [<-] /= _]; last by rewrite g1 size_cat /= addnA.
case etr: (Dqn.train _ _ _) => [s2|] //= /_epsilon_decay_counters.
case=> _ _ -> _ _ _; have [_ _ _ [-> _] _] := train_epochs_mean etr.
by rewrite /= g1 size_cat /= addnA.
Qed.

(** *** [update] returns *)



End Agent.

End DqnMore.

(** ** More examples *)

Module MoreInstances.

Import Torch Instances.

(** *** Returns and advantages *)


Lemma compute_reinforce_loss_undefined_witness :
  Reinforce.compute_reinforce_loss [::] log_pi3 = None.
Proof.
exact: (@ReturnMore.compute_reinforce_loss_undefined _ [::] log_pi3
          (or_introl erefl)).
Defined.





Definition junk7q : nat -> rat := fun _ => 7.




(** *** The rollout buffer *)

Definition steps3 : seq (A2C.step rat) :=
  [:: A2C.Step 10 false (-1) 1 2; A2C.Step 20 true (-1) 2 3;
      A2C.Step 30 false (-2) 3 4].

Lemma rollout_trains_on_batches_witness :
  exists st,
    A2C.rollout_run junk7q 2 3 2 steps3 = Some st /\ A2C.t st = 1%N.
Proof.
have [st run [et _ _]] :=
  @A2C.rollout_trains_on_batches _ junk7q 2 3 2 steps3 isT.
by exists st; split; [exact: run | rewrite et].
Defined.

Lemma rollout_without_slots_witness :
  A2C.rollout_run junk7q 2 3 0 steps3 = None.
Proof.
exact: (@A2C.rollout_without_slots _ junk7q 2 3 0 _ _ erefl).
Defined.

(** *** The replay buffer *)

Lemma add_stores_num_envs_rows_witness :
  exists rb', Replay.add buffer1 (exp1 2) = Some rb' /\ Replay.count rb' = 2%N.
Proof.
have [rb' run [_ _ _ ec _]] :=
  @ReplayMore.add_stores_num_envs_rows _ buffer1 _ (exp1 2) buffer1_reachable
    isT isT.
by exists rb'; split; [exact: run | rewrite ec].
Defined.

Lemma add_raises_witness :
  Replay.add (Replay.init nat 2 1 0 1) (exp1 1) = None.
Proof.
exact: (@ReplayMore.add_raises _ (Replay.init nat 2 1 0 1) (exp1 1) isT).
Defined.

(** *** The policy *)

Definition q_values2 : matrix rat := [:: [:: 1; 2]; [:: 3; 1]].

Lemma epsilon_greedy_distribution_witness :
  exists probs,
    Policy.epsilon_greedy_prob (1%:Q / 10%:Q) 2 q_values2 = Some probs
    /\ size probs = 2%N.
Proof.
have [probs run [sz _]] :=
  @Policy.epsilon_greedy_distribution _ (1%:Q / 10%:Q) 2 q_values2 isT isT.
by exists probs; split; [exact: run | rewrite sz].
Defined.

Lemma epsilon_greedy_bounds_witness :
  exists probs,
    Policy.epsilon_greedy_prob (1%:Q / 10%:Q) 2 q_values2 = Some probs.
Proof.
have [probs run _] :=
  @Policy.epsilon_greedy_bounds _ (1%:Q / 10%:Q) 2 q_values2 isT isT isT.
by exists probs.
Defined.

(** *** The agent *)


(** A schedule given going up. *)
Definition config_up : Dqn.DQNConfig rat :=
  Dqn.mkConfig 2 1 3 2 (0, 100, 1%:Q / 100%:Q, 3%:Q / 10%:Q) (99%:Q / 100%:Q).

Definition agent_up : Dqn.DQN rat nat unit := Dqn.init nat config_up tt 1.


Lemma epsilon_decay_crossed_bounds_witness :
  Dqn.epsilon (odflt agent_up (Dqn._epsilon_decay agent_up 5))
  = 1%:Q / 100%:Q.
Proof.
have run : Dqn._epsilon_decay agent_up 5
           = Some (odflt agent_up (Dqn._epsilon_decay agent_up 5)).
  reflexivity.
exact: (@DqnMore.epsilon_decay_crossed_bounds _ _ _ agent_up 5 _ 0 100
          (1%:Q / 100%:Q) (3%:Q / 10%:Q) erefl isT run).
Defined.





Lemma run_counters_witness : Dqn.global_time_step agent_epoch2 = 5%N.
Proof.
have run : Dqn.run learn0 rng0 (Dqn.init nat config_epoch2 tt 1)
             [:: exp1 1; exp1 2; exp1 3; exp1 4; exp1 5] = Some agent_epoch2.
  reflexivity.
have [eg _ _ _] := DqnMore.run_counters run.
exact: eg.
Defined.


End MoreInstances.
